(** * formularun: the game loop engine and the leaderboard store

    A shallow embedding of [src/components/GameEngine.tsx] (the simulation
    state, [initGame], the input handlers, [getProjection], [drawPlayer] and
    the tick function [render]) and of the leaderboard service
    ([getDB], [saveDB], [getAll], [addScore]).

    Conventions of the model.
    - A JavaScript [number] is an exact rational ([Q]): no rounding, no NaN
      and no infinities.  Every constant of the source (0.4, 1.2, 0.25,
      1.8, 0.06, 0.05, 0.01, 0.0001, 0.5, ...) is the decimal it is written
      as.  The one division of the source has the divisor
      [gameHeight - horizonY]; the model is the code where that divisor is
      not 0 (a viewport with a height), which is where the statements
      about the value of the quotient are made.
    - Canvas drawing has no effect on the simulation state and is left out;
      what [drawPlayer] and the object loop do to the state is kept.
    - [Math.random()] is an input: each call site of a tick that feeds the
      state reads its own field of a [TickRandom] record.
    - [crypto.randomUUID()] and [new Date().toISOString()] are inputs of
      [addScore].
    - A string of the leaderboard is the sequence of its UTF-16 code
      units.  [String.prototype.toUpperCase] is a built-in, not code of the
      repository: it is a parameter, and the properties that depend on
      what it returns say what they use of it.
    - The constants module of the repository is not part of the sources at
      hand: [TRACK_TOP_WIDTH_RATIO], [TRACK_BOTTOM_WIDTH_RATIO],
      [ROAD_SPEED_BASE] and [MAX_LEADERBOARD_ENTRIES] are parameters. *)

From Stdlib Require Import QArith Qround Qabs Qpower ZArith NArith.
From Stdlib Require Import List String Ascii Bool.
From Stdlib Require Import Lia Lqa Permutation Sorted.
Import ListNotations.

(** ** JavaScript numbers as rationals *)

Module JS.

Open Scope Q_scope.

(** [a < b] on numbers. *)
Definition ltb (a b : Q) : bool :=
  match a ?= b with Lt => true | _ => false end.

(** [a > b] on numbers. *)
Definition gtb (a b : Q) : bool := ltb b a.

(** [a <= b] on numbers. *)
Definition leb (a b : Q) : bool := negb (ltb b a).

(** [Math.min(a, b)] and [Math.max(a, b)]. *)
Definition min (a b : Q) : Q := if ltb b a then b else a.
Definition max (a b : Q) : Q := if ltb a b then b else a.

(** [Math.floor]. *)
Definition floor (a : Q) : Z := Qfloor a.

End JS.

(** ** The game engine *)

Module Engine.

Open Scope Q_scope.

(** [RoadObject] of the types module. *)
Inductive ObjType : Type := Obstacle | Coin | Scenery.

Record RoadObject : Type := mkObj {
  obj_x : Q;          (* x: lane coordinate *)
  obj_y : Q;          (* y: depth *)
  initialWidth : Q;
  initialHeight : Q;
  color : string;
  type : ObjType
}.

Record RoadLine : Type := mkLine { line_y : Q }.

(** The mutable record held in [stateRef.current]. *)
Record State : Type := mkState {
  carX : Q;
  roadCurvature : Q;
  curveDirection : Q;
  curveTimer : Q;
  score : Q;
  coins : Z;
  speed : Q;
  obstacles : list RoadObject;
  coinsList : list RoadObject;
  scenery : list RoadObject;
  roadLines : list RoadLine;
  keys : string -> bool;
  touchX : option Q;
  horizonY : Q
}.

(** The initial value given to [useRef]. *)
Definition stateRef0 : State :=
  {| carX := 0; roadCurvature := 0; curveDirection := 1; curveTimer := 0;
     score := 0; coins := 0%Z; speed := 10;
     obstacles := []; coinsList := []; scenery := []; roadLines := [];
     keys := fun _ => false; touchX := None; horizonY := 0 |}.

(** The value returned by [getProjection] when it is not [null]. *)
Record Projection : Type := mkProj {
  proj_x : Q;
  proj_y : Q;
  proj_width : Q;
  proj_height : Q;
  zIndex : Q
}.

(** The bounding box returned by [drawPlayer]. *)
Record Box : Type := mkBox {
  box_x : Q;
  box_y : Q;
  box_width : Q;
  box_height : Q
}.

(** The two callbacks of the host, as the calls a tick makes. *)
Inductive Callback : Type :=
| onGameOver (score : Z) (coins : Z)
| onScoreUpdate (score : Z) (coins : Z).

(** The values [Math.random()] returns to the state-changing call sites of
    one tick, one field per call site. *)
Record TickRandom : Type := mkRandom {
  rObstacleSpawn : Q;
  rObstacleLane : Q;
  rObstacleColor : Q;
  rCoinSpawn : Q;
  rCoinLane : Q;
  rCurveTimer : Q;
  rCurveDirection : Q
}.

(** Field updates of the state record. *)
Definition set_carX (v : Q) (s : State) : State :=
  mkState v (roadCurvature s) (curveDirection s) (curveTimer s) (score s)
    (coins s) (speed s) (obstacles s) (coinsList s) (scenery s)
    (roadLines s) (keys s) (touchX s) (horizonY s).

Definition set_roadCurvature (v : Q) (s : State) : State :=
  mkState (carX s) v (curveDirection s) (curveTimer s) (score s)
    (coins s) (speed s) (obstacles s) (coinsList s) (scenery s)
    (roadLines s) (keys s) (touchX s) (horizonY s).

Definition set_curveDirection (v : Q) (s : State) : State :=
  mkState (carX s) (roadCurvature s) v (curveTimer s) (score s)
    (coins s) (speed s) (obstacles s) (coinsList s) (scenery s)
    (roadLines s) (keys s) (touchX s) (horizonY s).

Definition set_curveTimer (v : Q) (s : State) : State :=
  mkState (carX s) (roadCurvature s) (curveDirection s) v (score s)
    (coins s) (speed s) (obstacles s) (coinsList s) (scenery s)
    (roadLines s) (keys s) (touchX s) (horizonY s).

Definition set_score (v : Q) (s : State) : State :=
  mkState (carX s) (roadCurvature s) (curveDirection s) (curveTimer s) v
    (coins s) (speed s) (obstacles s) (coinsList s) (scenery s)
    (roadLines s) (keys s) (touchX s) (horizonY s).

Definition set_coins (v : Z) (s : State) : State :=
  mkState (carX s) (roadCurvature s) (curveDirection s) (curveTimer s)
    (score s) v (speed s) (obstacles s) (coinsList s) (scenery s)
    (roadLines s) (keys s) (touchX s) (horizonY s).

Definition set_obstacles (v : list RoadObject) (s : State) : State :=
  mkState (carX s) (roadCurvature s) (curveDirection s) (curveTimer s)
    (score s) (coins s) (speed s) v (coinsList s) (scenery s)
    (roadLines s) (keys s) (touchX s) (horizonY s).

Definition set_coinsList (v : list RoadObject) (s : State) : State :=
  mkState (carX s) (roadCurvature s) (curveDirection s) (curveTimer s)
    (score s) (coins s) (speed s) (obstacles s) v (scenery s)
    (roadLines s) (keys s) (touchX s) (horizonY s).

Definition set_scenery (v : list RoadObject) (s : State) : State :=
  mkState (carX s) (roadCurvature s) (curveDirection s) (curveTimer s)
    (score s) (coins s) (speed s) (obstacles s) (coinsList s) v
    (roadLines s) (keys s) (touchX s) (horizonY s).

Definition set_roadLines (v : list RoadLine) (s : State) : State :=
  mkState (carX s) (roadCurvature s) (curveDirection s) (curveTimer s)
    (score s) (coins s) (speed s) (obstacles s) (coinsList s) (scenery s)
    v (keys s) (touchX s) (horizonY s).

Definition set_keys (v : string -> bool) (s : State) : State :=
  mkState (carX s) (roadCurvature s) (curveDirection s) (curveTimer s)
    (score s) (coins s) (speed s) (obstacles s) (coinsList s) (scenery s)
    (roadLines s) v (touchX s) (horizonY s).

Definition set_touchX (v : option Q) (s : State) : State :=
  mkState (carX s) (roadCurvature s) (curveDirection s) (curveTimer s)
    (score s) (coins s) (speed s) (obstacles s) (coinsList s) (scenery s)
    (roadLines s) (keys s) v (horizonY s).

Definition set_obj_y (v : Q) (o : RoadObject) : RoadObject :=
  mkObj (obj_x o) v (initialWidth o) (initialHeight o) (color o) (type o).

Definition TickResult : Type := (State * list Callback * bool)%type.

(** The state a tick leaves in [stateRef.current]. *)
Definition tick_state (r : TickResult) : State := fst (fst r).

(** The host callbacks a tick invoked, in call order. *)
Definition tick_calls (r : TickResult) : list Callback := snd (fst r).

(** Whether the tick ended with [requestAnimationFrame(render)]. *)
Definition tick_rescheduled (r : TickResult) : bool := snd r.

(** The props [gameWidth] and [gameHeight] of the component, with the
    constants it imports. *)
Record Props : Type := mkProps {
  gameWidth : Q;
  gameHeight : Q;
  TRACK_TOP_WIDTH_RATIO : Q;
  TRACK_BOTTOM_WIDTH_RATIO : Q;
  ROAD_SPEED_BASE : Q
}.

Section WithProps.

Variable P : Props.

(** *** initGame *)

Definition sceneryAt (lane : Q) (horizon r : Q) : RoadObject :=
  {| obj_x := lane; obj_y := horizon + r * gameHeight P;
     initialWidth := 400; initialHeight := 150;
     color := "#444"; type := Scenery |}.

(** The loop [for (let i = 0; i < 10; i++)] of [initGame]: [n] iterations
    are left, [i] is the loop counter, and the two [Math.random()] calls of
    iteration [i] return [rnd (2 * i)] and [rnd (2 * i + 1)]. *)
Fixpoint prepopulate (rnd : nat -> Q) (horizon : Q) (n i : nat)
    (sc : list RoadObject) : list RoadObject :=
  match n with
  | O => sc
  | S n' =>
      let sc1 := sc ++ [sceneryAt (-2.5) horizon (rnd (2 * i)%nat)] in
      let sc2 := sc1 ++ [sceneryAt 2.5 horizon (rnd (2 * i + 1)%nat)] in
      prepopulate rnd horizon n' (S i) sc2
  end.

(** [Array.from({ length: 12 }).map((_, i) => ...)]. *)
Definition initRoadLines (horizon : Q) : list RoadLine :=
  map (fun i : nat =>
         mkLine (horizon
                 + (inject_Z (Z.of_nat i) * (gameHeight P - horizon) / 12)))
      (seq 0 12).

(** [initGame]: the object spread keeps every field of the previous record
    that the literal does not list. *)
Definition initGame (rnd : nat -> Q) (prev : State) : State :=
  let horizon := gameHeight P * 0.4 in
  {| carX := 0;
     roadCurvature := 0;
     curveDirection := curveDirection prev;
     curveTimer := curveTimer prev;
     score := 0;
     coins := 0%Z;
     speed := ROAD_SPEED_BASE P;
     obstacles := [];
     coinsList := [];
     scenery := prepopulate rnd horizon 10 0 [];
     roadLines := initRoadLines horizon;
     keys := keys prev;
     touchX := touchX prev;
     horizonY := horizon |}.

(** *** Keyboard and touch handlers *)

Definition handleKey (k : string) (pressed : bool) (s : State) : State :=
  set_keys (fun k' => if String.eqb k' k then pressed else keys s k') s.

Definition handleKeyDown (k : string) : State -> State := handleKey k true.
Definition handleKeyUp (k : string) : State -> State := handleKey k false.

Definition handleTouchStart (clientX : Q) (s : State) : State :=
  set_touchX (Some clientX) s.

Definition handleTouchMove (clientX : Q) (s : State) : State :=
  match touchX s with
  | Some t =>
      let diff := clientX - t in
      set_touchX (Some clientX) (set_carX (carX s + diff * 0.005) s)
  | None => s
  end.

Definition handleTouchEnd (s : State) : State := set_touchX None s.

(** *** getProjection *)

(** The quotient of [getProjection].  For a divisor 0 (viewport of height
    0) JavaScript yields an infinity or NaN, which [Q] does not have. *)
Definition perspectiveOf (obj : RoadObject) (horizon : Q) : Q :=
  (obj_y obj - horizon) / (gameHeight P - horizon).

Definition roadWidthAt (perspective : Q) : Q :=
  (gameWidth P * TRACK_TOP_WIDTH_RATIO P)
  + (gameWidth P * (TRACK_BOTTOM_WIDTH_RATIO P - (TRACK_TOP_WIDTH_RATIO P))
     * perspective).

Definition getProjection (s : State) (obj : RoadObject) (horizon : Q)
    : option Projection :=
  let curvature := roadCurvature s in
  let perspective := perspectiveOf obj horizon in
  if JS.ltb perspective 0 || JS.gtb perspective 1.2 then None
  else
    let scale := perspective in
    let scaledWidth := initialWidth obj * scale in
    let scaledHeight := initialHeight obj * scale in
    let roadWidthAtY := roadWidthAt perspective in
    let curveOffsetAtY := curvature * (1 - perspective) in
    let screenX :=
      (gameWidth P / 2) + (roadWidthAtY * obj_x obj * 0.25) + curveOffsetAtY in
    Some {| proj_x := screenX; proj_y := obj_y obj;
            proj_width := scaledWidth; proj_height := scaledHeight;
            zIndex := perspective |}.

(** *** drawPlayer *)

Definition clampCarX (x : Q) : Q := JS.max (-1.8) (JS.min 1.8 x).

Definition drawPlayer (s : State) : State * Box :=
  let trackWidthBase := gameWidth P * TRACK_BOTTOM_WIDTH_RATIO P in
  let s' := set_carX (clampCarX (carX s)) s in
  let playerX := (gameWidth P / 2) + (carX s' * trackWidthBase * 0.06) in
  let playerY := gameHeight P - 80 in
  (s', {| box_x := playerX; box_y := playerY;
          box_width := 100; box_height := 45 |}).

(** *** render: one tick *)

(** Step 4, the state part of [roadLines.forEach]. *)
Definition updateLine (s : State) (horizon : Q) (line : RoadLine)
    : RoadLine :=
  let y1 := line_y line + speed s in
  if JS.gtb y1 (gameHeight P) then mkLine horizon else mkLine y1.

Definition updateRoadLines (horizon : Q) (s : State) : State :=
  set_roadLines (map (updateLine s horizon) (roadLines s)) s.

(** Step 5: [allObjects] holds the very objects of the three lists, so
    [obj.y += speed] on each of its elements advances every object of
    every list once; sorting [allObjects] does not reorder the lists. *)
Definition advance (s : State) (obj : RoadObject) : RoadObject :=
  set_obj_y (obj_y obj + speed s) obj.

Definition advanceObjects (s : State) : State :=
  set_scenery (map (advance s) (scenery s))
    (set_coinsList (map (advance s) (coinsList s))
       (set_obstacles (map (advance s) (obstacles s)) s)).

(** Step 7: spawning.  [Math.random()] is in [0, 1), which makes the
    colour index one of 0, 1, 2. *)
Definition obstacleColors : list string :=
  ["#2563eb"%string; "#db2777"%string; "#9333ea"%string].

Definition spawnObstacle (rnd : TickRandom) (horizon : Q) (s : State)
    : State :=
  if JS.ltb (rObstacleSpawn rnd) 0.02 && Nat.ltb (List.length (obstacles s)) 5
  then
    let lane := (rObstacleLane rnd * 4) - 2 in
    set_obstacles
      (obstacles s ++
       [{| obj_x := lane; obj_y := horizon - 50;
           initialWidth := 80; initialHeight := 40;
           color := nth (Z.to_nat (JS.floor (rObstacleColor rnd * 3)))
                        obstacleColors "undefined"%string;
           type := Obstacle |}]) s
  else s.

Definition spawnCoin (rnd : TickRandom) (horizon : Q) (s : State) : State :=
  if JS.ltb (rCoinSpawn rnd) 0.03
  then
    let lane := (rCoinLane rnd * 4) - 2 in
    set_coinsList
      (coinsList s ++
       [{| obj_x := lane; obj_y := horizon - 50;
           initialWidth := 40; initialHeight := 40;
           color := "gold"; type := Coin |}]) s
  else s.

(** Step 8: cleanup. *)
Definition inPlay (o : RoadObject) : bool := JS.ltb (obj_y o) (gameHeight P + 100).

Definition recycle (horizon : Q) (o : RoadObject) : RoadObject :=
  if JS.gtb (obj_y o) (gameHeight P + 200) then set_obj_y (horizon - 200) o
  else o.

Definition cleanup (horizon : Q) (s : State) : State :=
  set_scenery (map (recycle horizon) (scenery s))
    (set_coinsList (filter inPlay (coinsList s))
       (set_obstacles (filter inPlay (obstacles s)) s)).

(** Step 9: does this obstacle end the game?  [hitBoxPadding] is 20. *)
Definition hitBoxPadding : Q := 20.

Definition obstacleHits (s : State) (horizon : Q) (player : Box)
    (obs : RoadObject) : bool :=
  match getProjection s obs horizon with
  | Some proj =>
      if JS.gtb (proj_y proj) (box_y player - 20)
         && JS.ltb (proj_y proj) (box_y player + 20)
      then
        let obsLeft := proj_x proj - proj_width proj / 2 in
        let obsRight := proj_x proj + proj_width proj / 2 in
        let playerLeft := box_x player - box_width player / 2 + hitBoxPadding in
        let playerRight := box_x player + box_width player / 2 - hitBoxPadding in
        JS.gtb playerRight obsLeft && JS.ltb playerLeft obsRight
      else false
  | None => false
  end.

(** The loop [for (const obs of obstacles)]: [true] when it reaches the
    [onGameOver] call and the [return]. *)
Fixpoint checkEnemyCollisions (s : State) (horizon : Q) (player : Box)
    (obs : list RoadObject) : bool :=
  match obs with
  | [] => false
  | o :: rest =>
      if obstacleHits s horizon player o then true
      else checkEnemyCollisions s horizon player rest
  end.

(** Step 10: does the player collect this coin? *)
Definition coinHits (s : State) (horizon : Q) (player : Box)
    (c : RoadObject) : bool :=
  match getProjection s c horizon with
  | Some proj =>
      if JS.gtb (proj_y proj) (box_y player - 30)
         && JS.ltb (proj_y proj) (box_y player + 30)
      then
        let coinLeft := proj_x proj - proj_width proj / 2 in
        let coinRight := proj_x proj + proj_width proj / 2 in
        let playerLeft := box_x player - box_width player / 2 in
        let playerRight := box_x player + box_width player / 2 in
        JS.gtb playerRight coinLeft && JS.ltb playerLeft coinRight
      else false
  | None => false
  end.

(** [list.splice(i, 1)]. *)
Definition splice1 {A : Type} (i : nat) (l : list A) : list A :=
  firstn i l ++ skipn (S i) l.

(** The loop [for (let i = coinsList.length - 1; i >= 0; i--)], entered
    with [n = i + 1].  Reading [coinsList[i]] past the end gives
    [undefined], on which [getProjection] throws: [None]. *)
Fixpoint coinLoop (horizon : Q) (player : Box) (n : nat) (s : State)
    : option State :=
  match n with
  | O => Some s
  | S i =>
      match nth_error (coinsList s) i with
      | None => None
      | Some c =>
          if coinHits s horizon player c then
            let s1 := set_coins (coins s + 1)%Z s in
            let s2 := set_score (score s1 + 50) s1 in
            let s3 := set_coinsList (splice1 i (coinsList s2)) s2 in
            coinLoop horizon player i s3
          else coinLoop horizon player i s
      end
  end.

Definition checkCoinCollisions (horizon : Q) (player : Box) (s : State)
    : option State :=
  coinLoop horizon player (List.length (coinsList s)) s.

(** Step 11: keyboard. *)
Definition moveCar (s : State) : State :=
  let s1 :=
    if keys s "ArrowLeft"%string || keys s "a"%string
    then set_carX (carX s - 0.05) s else s in
  if keys s1 "ArrowRight"%string || keys s1 "d"%string
  then set_carX (carX s1 + 0.05) s1 else s1.

(** Step 12: curve, then the centrifugal pull on the car. *)
Definition retargetCurve (rnd : TickRandom) (s : State) : State :=
  let s1 := set_curveTimer (curveTimer s - 1) s in
  if JS.leb (curveTimer s1) 0 then
    set_curveDirection (if JS.gtb (rCurveDirection rnd) 0.5 then 1 else -1)
      (set_curveTimer (rCurveTimer rnd * 200 + 100) s1)
  else s1.

Definition easeCurve (s : State) : State :=
  let targetCurve := curveDirection s * 200 in
  set_roadCurvature
    (roadCurvature s + (targetCurve - roadCurvature s) * 0.01) s.

Definition updateCurve (rnd : TickRandom) (s : State) : State :=
  let s2 := easeCurve (retargetCurve rnd s) in
  set_carX (carX s2 - roadCurvature s2 * 0.0001) s2.

(** Step 13: score and the periodic report.  [%] is the remainder of the
    truncated division. *)
Definition addTickScore (s : State) : State := set_score (score s + 0.5) s.

Definition reportStats (s : State) : list Callback :=
  if (Z.rem (JS.floor (score s)) 10 =? 0)%Z
  then [onScoreUpdate (JS.floor (score s)) (coins s)]
  else [].

(** What the tick has done to the state when it reaches the collision
    checks, with the box [drawPlayer] returned. *)
Definition beforeCollisions (rnd : TickRandom) (s : State) : State * Box :=
  let horizon := horizonY s in
  let s1 := updateRoadLines horizon s in
  let s2 := advanceObjects s1 in
  let (s3, player) := drawPlayer s2 in
  let s4 := spawnObstacle rnd horizon s3 in
  let s5 := spawnCoin rnd horizon s4 in
  (cleanup horizon s5, player).

(** [render].  [None] stands for an uncaught exception. *)
Definition render (rnd : TickRandom) (s : State) : option TickResult :=
  let horizon := horizonY s in
  let (s6, player) := beforeCollisions rnd s in
  if checkEnemyCollisions s6 horizon player (obstacles s6) then
    Some (s6, [onGameOver (JS.floor (score s6)) (coins s6)], false)
  else
    match checkCoinCollisions horizon player s6 with
    | None => None
    | Some s7 =>
        let s8 := moveCar s7 in
        let s9 := updateCurve rnd s8 in
        let s10 := addTickScore s9 in
        Some (s10, reportStats s10, true)
    end.

(** What the pressed keys add to [carX] in a tick. *)
Definition keyStep (s : State) : Q :=
  (if keys s "ArrowRight"%string || keys s "d"%string then 0.05 else 0)
  - (if keys s "ArrowLeft"%string || keys s "a"%string then 0.05 else 0).

(** The state a tick that finds no obstacle overlap ends in, given the
    state [s7] its coin pass left. *)
Definition afterCoins (rnd : TickRandom) (s7 : State) : State :=
  addTickScore (updateCurve rnd (moveCar s7)).

(** *** The frame loop of a session *)

Inductive InputEvent : Type :=
| KeyDown (key : string)
| KeyUp (key : string)
| TouchStart (clientX : Q)
| TouchMove (clientX : Q)
| TouchEnd.

Definition handleInput (s : State) (e : InputEvent) : State :=
  match e with
  | KeyDown k => handleKeyDown k s
  | KeyUp k => handleKeyUp k s
  | TouchStart x => handleTouchStart x s
  | TouchMove x => handleTouchMove x s
  | TouchEnd => handleTouchEnd s
  end.

(** One animation frame: the input events delivered since the previous
    tick, then the tick with its random draws. *)
Record Frame : Type := mkFrame {
  inputs : list InputEvent;
  random : TickRandom
}.

Definition applyInputs (evs : list InputEvent) (s : State) : State :=
  fold_left handleInput evs s.

(** The loop that [requestAnimationFrame] drives: a frame runs only if the
    previous tick rescheduled [render].  The result is the last state, the
    callbacks invoked so far and whether a next tick is scheduled. *)
Fixpoint runSession (frames : list Frame) (s : State) : option TickResult :=
  match frames with
  | [] => Some (s, [], true)
  | f :: rest =>
      match render (random f) (applyInputs (inputs f) s) with
      | None => None
      | Some (s1, calls, false) => Some (s1, calls, false)
      | Some (s1, calls, true) =>
          match runSession rest s1 with
          | None => None
          | Some (s2, calls2, again) => Some (s2, calls ++ calls2, again)
          end
      end
  end.

Definition isGameOver (c : Callback) : bool :=
  match c with onGameOver _ _ => true | onScoreUpdate _ _ => false end.

Definition gameOverCount (calls : list Callback) : nat :=
  List.length (filter isGameOver calls).

(** Does the tick started in [s] find an obstacle overlap? *)
Definition collides (rnd : TickRandom) (s : State) : bool :=
  let (s6, player) := beforeCollisions rnd s in
  checkEnemyCollisions s6 (horizonY s) player (obstacles s6).

(** The overlap tests of steps 9 and 10, as propositions: the projected
    [y] lies strictly inside the band of half-height [band] around the
    player's [y], and the projected box meets the player's box shrunk by
    [pad] on each side. *)
Definition Overlaps (band pad : Q) (player : Box) (proj : Projection)
    : Prop :=
  (box_y player - band < proj_y proj /\ proj_y proj < box_y player + band)
  /\ proj_x proj - proj_width proj / 2
     < box_x player + box_width player / 2 - pad
  /\ box_x player - box_width player / 2 + pad
     < proj_x proj + proj_width proj / 2.

Definition collected (s : State) (h : Q) (p : Box) (n : nat)
    (l : list RoadObject) : nat :=
  List.length (filter (coinHits s h p) (firstn n l)).

Definition missed (s : State) (h : Q) (p : Box) (c : RoadObject) : bool :=
  negb (coinHits s h p c).

(** The state of the reverse loop when [n] indices are left to visit. *)

(** The session reaches a collision: after some frames that all
    rescheduled the tick, the next tick finds an obstacle overlap. *)
Definition ReachesCollision (frames : list Frame) (s : State) : Prop :=
  exists before f after s1 calls,
    frames = before ++ f :: after
    /\ runSession before s = Some (s1, calls, true)
    /\ collides (random f) (applyInputs (inputs f) s1) = true.

(** Some obstacle of the state the collision checks run in overlaps the
    player: it is projected, inside the band of 20 around the player, and
    its box meets the player's box shrunk by the padding of 20. *)
Definition ObstacleOverlap (rnd : TickRandom) (s : State) : Prop :=
  let s6 := fst (beforeCollisions rnd s) in
  let player := snd (beforeCollisions rnd s) in
  exists o proj,
    In o (obstacles s6)
    /\ getProjection s6 o (horizonY s) = Some proj
    /\ Overlaps 20 20 player proj.

(** The [onScoreUpdate] calls among the calls of a tick. *)
Definition scoreUpdates (calls : list Callback) : list Callback :=
  filter (fun c => negb (isGameOver c)) calls.

(** How often [onScoreUpdate] was called with score [m]. *)
Definition reportsScore (m : Z) (c : Callback) : bool :=
  match c with
  | onScoreUpdate z _ => (z =? m)%Z
  | onGameOver _ _ => false
  end.

Definition scoreUpdateCount (m : Z) (calls : list Callback) : nat :=
  List.length (filter (reportsScore m) calls).

(** The values the state record takes while the component is mounted: the
    initial value of the ref, then session initialisations, input events
    and ticks in any order. *)
Inductive Reachable : State -> Prop :=
| reach_mount : Reachable stateRef0
| reach_init (rnd : nat -> Q) (s : State) :
    Reachable s -> Reachable (initGame rnd s)
| reach_input (e : InputEvent) (s : State) :
    Reachable s -> Reachable (handleInput s e)
| reach_tick (rnd : TickRandom) (s : State) (r : TickResult) :
    Reachable s -> render rnd s = Some r -> Reachable (tick_state r).

(** The curve direction is a sign and the curvature is inside the
    amplitude. *)
Definition CurveInv (s : State) : Prop :=
  (curveDirection s = 1 \/ curveDirection s = -1)
  /\ -200 < roadCurvature s /\ roadCurvature s < 200.

End WithProps.

(** *** Sample inputs *)

(** A viewport of 800 by 600 with road width ratios 0.1 and 0.8. *)
Definition sampleProps : Props :=
  {| gameWidth := 800; gameHeight := 600;
     TRACK_TOP_WIDTH_RATIO := 0.1; TRACK_BOTTOM_WIDTH_RATIO := 0.8;
     ROAD_SPEED_BASE := 10 |}.

(** Random draws under which a tick spawns nothing. *)
Definition quietRandom : TickRandom :=
  {| rObstacleSpawn := 0.5; rObstacleLane := 0.5; rObstacleColor := 0.5;
     rCoinSpawn := 0.5; rCoinLane := 0.5;
     rCurveTimer := 0.5; rCurveDirection := 0.75 |}.

Definition quietFrame : Frame := {| inputs := []; random := quietRandom |}.

(** The same viewport at a base speed of 160. *)
Definition fastProps : Props :=
  {| gameWidth := 800; gameHeight := 600;
     TRACK_TOP_WIDTH_RATIO := 0.1; TRACK_BOTTOM_WIDTH_RATIO := 0.8;
     ROAD_SPEED_BASE := 160 |}.

(** Random draws under which a tick spawns an obstacle in lane 0. *)
Definition spawnRandom : TickRandom :=
  {| rObstacleSpawn := 0.01; rObstacleLane := 0.5; rObstacleColor := 0.5;
     rCoinSpawn := 0.5; rCoinLane := 0.5;
     rCurveTimer := 0.5; rCurveDirection := 0.75 |}.

Definition spawnFrame : Frame := {| inputs := []; random := spawnRandom |}.

(** A session at speed 160, two ticks in: the first tick spawned an
    obstacle in lane 0. *)
Definition twoTicksIn : State :=
  match runSession fastProps [spawnFrame; quietFrame]
          (initGame fastProps (fun _ => 0.5) stateRef0) with
  | Some r => tick_state r
  | None => stateRef0
  end.

(** The first session after mounting. *)
Definition firstSession : State :=
  initGame sampleProps (fun _ => 0.5) stateRef0.

(** The first session one quiet tick later. *)
Definition afterOneTick : State :=
  match render sampleProps quietRandom firstSession with
  | Some r => tick_state r
  | None => firstSession
  end.

(** The first session two quiet ticks later. *)
Definition afterTwoTicks : State :=
  match render sampleProps quietRandom afterOneTick with
  | Some r => tick_state r
  | None => afterOneTick
  end.

(** A session state with an obstacle in the player's lane that the next
    tick moves into the player's band. *)
Definition crashState : State :=
  set_obstacles
    [{| obj_x := 0; obj_y := 515; initialWidth := 80; initialHeight := 40;
        color := "#2563eb"; type := Obstacle |}]
    firstSession.

(** A session state with an obstacle in the player's lane halfway down
    the road. *)
Definition farState : State :=
  set_obstacles
    [{| obj_x := 0; obj_y := 300; initialWidth := 80; initialHeight := 40;
        color := "#db2777"; type := Obstacle |}]
    firstSession.

(** A session state with two adjacent coins in the player's lane that the
    next tick moves into the player's band, between two coins out of reach. *)
Definition coinAt (lane depth : Q) : RoadObject :=
  {| obj_x := lane; obj_y := depth; initialWidth := 40; initialHeight := 40;
     color := "gold"; type := Coin |}.

Definition coinState : State :=
  set_coinsList [coinAt 0 300; coinAt 0 510; coinAt 0 515; coinAt 1.9 400]
    firstSession.

(** The first session with the score 19 quiet ticks give. *)
Definition midSession : State := set_score 9.5 firstSession.

(** What a session that ended with a held key, an active touch and a left
    curve leaves in the record. *)
Definition leftoverState : State :=
  set_keys (fun k => String.eqb k "a")
    (set_touchX (Some 120)
       (set_curveTimer 57 (set_curveDirection (-1) stateRef0))).

End Engine.

(** ** The leaderboard service *)

Module Leaderboard.

Open Scope Z_scope.

(** A JavaScript string: the sequence of its UTF-16 code units. *)
Definition jsstring : Type := list N.

(** The string that an ASCII literal denotes. *)
Definition units (s : string) : jsstring :=
  map N_of_ascii (list_ascii_of_string s).

(** [ScoreEntry] of the types module.  The score the host passes is an
    integer. *)
Record ScoreEntry : Type := mkEntry {
  id : jsstring;
  name : jsstring;
  score : Z;
  date : jsstring
}.

(** What [localStorage] holds under [STORAGE_KEY]: nothing (or the empty
    string), a string [JSON.parse] throws on, or the JSON text of a list
    of entries, which is what [saveDB] writes. *)
Inductive Item : Type :=
| NoItem
| Malformed
| Entries (db : list ScoreEntry).

(** [getDB]: the parse error is caught. *)
Definition getDB (st : Item) : list ScoreEntry :=
  match st with
  | Entries db => db
  | NoItem | Malformed => []
  end.

(** [saveDB]: [accepts] tells whether [setItem] returns; when it throws
    the error is caught and the storage is as before. *)
Definition saveDB (accepts : bool) (data : list ScoreEntry) (st : Item)
    : Item :=
  if accepts then Entries data else st.

(** The comparator [(a, b) => b.score - a.score]. *)
Definition compareFn (a b : ScoreEntry) : Z := score b - score a.

(** [Array.prototype.sort] with this comparator: a stable sort, here by
    insertion.  [insert x l] puts [x], which preceded the elements of [l],
    before the first element it does not have to follow. *)
Fixpoint insert (x : ScoreEntry) (l : list ScoreEntry) : list ScoreEntry :=
  match l with
  | [] => [x]
  | y :: rest =>
      if compareFn x y <=? 0 then x :: y :: rest else y :: insert x rest
  end.

Fixpoint sort (l : list ScoreEntry) : list ScoreEntry :=
  match l with
  | [] => []
  | x :: rest => insert x (sort rest)
  end.

(** [getAll]. *)
Definition getAll (st : Item) : list ScoreEntry := sort (getDB st).

Section WithBuiltins.

(** [String.prototype.toUpperCase]. *)
Variable toUpperCase : jsstring -> jsstring.

(** [name.toUpperCase().substring(0, 10) || "PILOTO"]: [substring(0, 10)]
    keeps the first 10 code units, and the empty string is the one falsy
    string. *)
Definition entryName (name : jsstring) : jsstring :=
  let n := firstn 10 (toUpperCase name) in
  match n with
  | [] => units "PILOTO"
  | _ :: _ => n
  end.

(** [MAX_LEADERBOARD_ENTRIES], a count. *)
Variable MAX_LEADERBOARD_ENTRIES : nat.

(** [addScore]: [uuid] is what [crypto.randomUUID()] returns and [now]
    what [new Date().toISOString()] returns.  The result is the returned
    list with the storage the call leaves. *)
Definition addScore (uuid now : jsstring) (accepts : bool) (name : jsstring)
    (score : Z) (st : Item) : list ScoreEntry * Item :=
  let db := getDB st in
  let newEntry :=
    {| id := uuid; name := entryName name; score := score; date := now |} in
  let db1 := db ++ [newEntry] in
  let updated := firstn MAX_LEADERBOARD_ENTRIES (sort db1) in
  (updated, saveDB accepts updated st).

End WithBuiltins.

(** A string of ASCII characters. *)
Definition isAscii (s : jsstring) : Prop := Forall (fun u => (u < 128)%N) s.

(** Upper case on ASCII: the units of a to z are 97 to 122, those of A to
    Z are 32 less. *)
Definition isLowerUnit (u : N) : bool := ((97 <=? u) && (u <=? 122))%N.

Definition upperUnit (u : N) : N := if isLowerUnit u then (u - 32)%N else u.

Definition upperAscii (s : jsstring) : jsstring := map upperUnit s.

(** What the properties use of the built-in: it maps no string but the
    empty one to the empty string, and on a string of ASCII characters it
    replaces a to z by A to Z and keeps the rest. *)
Definition UpperCaseSpec (toUpperCase : jsstring -> jsstring) : Prop :=
  (forall s, toUpperCase s = [] -> s = [])
  /\ (forall s, isAscii s -> toUpperCase s = upperAscii s).

(** Descending by score. *)
Definition Descending : list ScoreEntry -> Prop :=
  StronglySorted (fun a b => score b <= score a).


(** One call of [addScore]: its arguments and what the environment
    answers. *)
Record Request : Type := mkRequest {
  req_uuid : jsstring;
  req_now : jsstring;
  req_accepts : bool;
  req_name : jsstring;
  req_score : Z
}.

(** The storage after a sequence of [addScore] calls. *)
Definition addScores (toUpperCase : jsstring -> jsstring) (cap : nat)
    (reqs : list Request) (st : Item) : Item :=
  fold_left
    (fun st q =>
       snd (addScore toUpperCase cap (req_uuid q) (req_now q)
              (req_accepts q) (req_name q) (req_score q) st))
    reqs st.

(** The storage holds nothing readable, or at most [cap] entries in
    descending order. *)
Definition StoreOk (cap : nat) (st : Item) : Prop :=
  match st with
  | Entries db => Descending db /\ (List.length db <= cap)%nat
  | NoItem | Malformed => True
  end.

(** *** Sample inputs *)

Definition sampleBoard : list ScoreEntry :=
  [ mkEntry (units "1") (units "ANA") 900 (units "d1");
    mkEntry (units "2") (units "BIA") 700 (units "d2");
    mkEntry (units "3") (units "CAIO") 500 (units "d3") ].

End Leaderboard.

(** ** The host component *)

Module App.

Import Leaderboard.

Open Scope Z_scope.

Inductive GameState : Type := MENU | PLAYING | GAME_OVER.

(** The React state of [App].  The player's name is a string of ASCII
    characters. *)
Record AppState : Type := mkApp {
  gameState : GameState;
  score : Z;
  coins : Z;
  playerName : string;
  highScores : list ScoreEntry
}.

(** The state [useState] sets up, over the storage found at mount. *)
Definition initialApp (st : Item) : AppState :=
  {| gameState := MENU; score := 0; coins := 0; playerName := "";
     highScores := getAll st |}.

(** [String.prototype.trim] on strings of ASCII characters: tab, line
    feed, vertical tab, form feed, carriage return and space are the
    white space. *)
Definition isSpace (c : ascii) : bool :=
  let n := nat_of_ascii c in
  ((9 <=? n)%nat && (n <=? 13)%nat) || (n =? 32)%nat.

Fixpoint trimStart (s : string) : string :=
  match s with
  | EmptyString => EmptyString
  | String c rest => if isSpace c then trimStart rest else s
  end.

Fixpoint trimEnd (s : string) : string :=
  match s with
  | EmptyString => EmptyString
  | String c rest =>
      let rest' := trimEnd rest in
      if isSpace c && String.eqb rest' "" then EmptyString
      else String c rest'
  end.

Definition trim (s : string) : string := trimEnd (trimStart s).

Fixpoint allSpaces (s : string) : bool :=
  match s with
  | EmptyString => true
  | String c rest => isSpace c && allSpaces rest
  end.

(** [startGame]: the alert leaves the state as it is. *)
Definition startGame (app : AppState) : AppState :=
  if String.eqb (trim (playerName app)) "" then app
  else mkApp PLAYING 0 0 (playerName app) (highScores app).

Definition returnToMenu (app : AppState) : AppState :=
  mkApp MENU (score app) (coins app) (playerName app) (highScores app).

(** The [onScoreUpdate] prop. *)
Definition handleScoreUpdate (s c : Z) (app : AppState) : AppState :=
  mkApp (gameState app) s c (playerName app) (highScores app).

Section WithCap.

Variable toUpperCase : jsstring -> jsstring.
Variable MAX_LEADERBOARD_ENTRIES : nat.

(** [handleGameOver], with the environment's answers to [addScore]. *)
Definition handleGameOver (uuid now : jsstring) (accepts : bool)
    (finalScore finalCoins : Z) (app : AppState) (st : Item)
    : AppState * Item :=
  let (updatedScores, st') :=
    addScore toUpperCase MAX_LEADERBOARD_ENTRIES uuid now accepts
      (units (playerName app)) (finalScore + finalCoins * 50) st in
  (mkApp GAME_OVER (score app) (coins app) (playerName app) updatedScores,
   st').

(** The two callback props of [GameEngine], applied to a call the engine
    makes. *)
Definition deliver (uuid now : jsstring) (accepts : bool)
    (call : Engine.Callback) (app : AppState) (st : Item)
    : AppState * Item :=
  match call with
  | Engine.onGameOver s c => handleGameOver uuid now accepts s c app st
  | Engine.onScoreUpdate s c => (handleScoreUpdate s c app, st)
  end.

End WithCap.

(** *** Sample inputs *)

Definition sampleApp : AppState :=
  mkApp PLAYING 0 0 "ANA" [].

End App.

(** * Properties *)

(** ** Comparisons *)

Module JSFacts.

Import JS.
Open Scope Q_scope.

Lemma ltb_lt (a b : Q) : ltb a b = true <-> a < b.
Proof.
  unfold ltb. rewrite Qlt_alt.
  destruct (a ?= b); split; congruence.
Qed.

Lemma ltb_ge (a b : Q) : ltb a b = false <-> b <= a.
Proof.
  split; intro H.
  - destruct (Qlt_le_dec a b) as [Hlt | Hle]; [| exact Hle].
    apply ltb_lt in Hlt. congruence.
  - destruct (ltb a b) eqn:E; [| reflexivity].
    apply ltb_lt in E. exfalso. lra.
Qed.

Lemma gtb_gt (a b : Q) : gtb a b = true <-> b < a.
Proof. unfold gtb. apply ltb_lt. Qed.


Lemma min_le_l (a b : Q) : min a b <= a.
Proof.
  unfold min. destruct (ltb b a) eqn:E.
  - apply ltb_lt in E. lra.
  - lra.
Qed.

Lemma max_ge_l (a b : Q) : a <= max a b.
Proof.
  unfold max. destruct (ltb a b) eqn:E.
  - apply ltb_lt in E. lra.
  - lra.
Qed.

Lemma max_cases (a b : Q) : max a b = a \/ max a b = b.
Proof. unfold max. destruct (ltb a b); auto. Qed.


End JSFacts.

(** ** The game engine *)

Module EngineFacts.

Import Engine.
Open Scope Q_scope.

Section WithProps.

Variable P : Props.

(** *** Field updates *)

Lemma getProjection_curvature (s1 s2 : State) (o : RoadObject) (h : Q) :
  roadCurvature s1 = roadCurvature s2 ->
  getProjection P s1 o h = getProjection P s2 o h.
Proof. unfold getProjection. intros ->. reflexivity. Qed.

Lemma coinHits_curvature (s1 s2 : State) (h : Q) (p : Box) (c : RoadObject) :
  roadCurvature s1 = roadCurvature s2 ->
  coinHits P s1 h p c = coinHits P s2 h p c.
Proof.
  intro E. unfold coinHits.
  rewrite (getProjection_curvature s1 s2 c h E). reflexivity.
Qed.

(** *** The coin pass *)

Lemma firstn_snoc_nth {A : Type} (l : list A) (i : nat) (a : A) :
  nth_error l i = Some a -> firstn (S i) l = firstn i l ++ [a].
Proof.
  revert i. induction l as [| b l IH]; intros [| i] H; simpl in *;
    try discriminate.
  - injection H as ->. reflexivity.
  - rewrite (IH i H). reflexivity.
Qed.

Lemma skipn_nth_cons {A : Type} (l : list A) (i : nat) (a : A) :
  nth_error l i = Some a -> skipn i l = a :: skipn (S i) l.
Proof.
  revert i. induction l as [| b l IH]; intros [| i] H; simpl in *;
    try discriminate.
  - injection H as ->. reflexivity.
  - apply (IH i H).
Qed.

Lemma splice1_firstn {A : Type} (l : list A) (i : nat) :
  (i <= List.length l)%nat -> firstn i (splice1 i l) = firstn i l.
Proof.
  intro H. unfold splice1.
  rewrite firstn_app, firstn_firstn, Nat.min_id.
  rewrite length_firstn, Nat.min_l by exact H.
  rewrite Nat.sub_diag. simpl. apply app_nil_r.
Qed.

Lemma splice1_skipn {A : Type} (l : list A) (i : nat) :
  (i <= List.length l)%nat -> skipn i (splice1 i l) = skipn (S i) l.
Proof.
  intro H. unfold splice1.
  rewrite skipn_app, length_firstn, Nat.min_l by exact H.
  rewrite Nat.sub_diag. simpl.
  rewrite skipn_all2; [reflexivity |].
  rewrite length_firstn. lia.
Qed.

Lemma splice1_length {A : Type} (l : list A) (i : nat) :
  (i < List.length l)%nat -> S (List.length (splice1 i l)) = List.length l.
Proof.
  intro H. unfold splice1.
  rewrite length_app, length_firstn, length_skipn. lia.
Qed.

(** Number of coins among the first [n] of [l] that the player collects. *)
Lemma coinLoop_spec (h : Q) (p : Box) (n : nat) :
  forall s : State,
    (n <= List.length (coinsList s))%nat ->
    exists s',
      coinLoop P h p n s = Some s'
      /\ coinsList s'
         = filter (missed P s h p) (firstn n (coinsList s))
           ++ skipn n (coinsList s)
      /\ coins s'
         = (coins s + Z.of_nat (collected P s h p n (coinsList s)))%Z
      /\ score s'
         == score s
            + 50 * inject_Z (Z.of_nat (collected P s h p n (coinsList s)))
      /\ set_score (score s) (set_coins (coins s)
           (set_coinsList (coinsList s) s'))
         = s.
Proof.
  induction n as [| i IH]; intros s Hn.
  - exists s. simpl. unfold collected. simpl.
    repeat split; try (destruct s; reflexivity).
    + lia.
    + change (inject_Z 0) with 0. lra.
  - destruct (nth_error (coinsList s) i) as [c |] eqn:Hc.
    2:{ apply nth_error_None in Hc. lia. }
    cbn [coinLoop]. rewrite Hc.
    unfold collected, missed.
    rewrite (firstn_snoc_nth _ _ _ Hc), !filter_app.
    cbn [filter]. destruct (coinHits P s h p c) eqn:Hhit; cbn [negb].
    + set (s3 := set_coinsList _ _).
      assert (Hcurv : roadCurvature s3 = roadCurvature s) by reflexivity.
      destruct (IH s3) as (s' & Hrun & Hl & Hc' & Hs & Hrest).
      { subst s3. cbn [coinsList set_coinsList set_score set_coins].
        pose proof (splice1_length (coinsList s) i). lia. }
      exists s'. split; [exact Hrun |].
      assert (E1 : firstn i (coinsList s3) = firstn i (coinsList s)).
      { subst s3. cbn [coinsList set_coinsList]. apply splice1_firstn. lia. }
      assert (E2 : skipn i (coinsList s3) = skipn (S i) (coinsList s)).
      { subst s3. cbn [coinsList set_coinsList]. apply splice1_skipn. lia. }
      assert (E3 : forall l, filter (missed P s3 h p) l = filter (missed P s h p) l).
      { intro l. apply filter_ext. intro a. unfold missed.
        rewrite (coinHits_curvature s3 s h p a Hcurv). reflexivity. }
      assert (E4 : forall l,
                 filter (coinHits P s3 h p) l = filter (coinHits P s h p) l).
      { intro l. apply filter_ext. intro a.
        apply (coinHits_curvature s3 s h p a Hcurv). }
      unfold collected in Hc', Hs. rewrite E1, E4 in Hc', Hs.
      rewrite E1, E2, E3 in Hl.
      split; [| split; [| split]].
      * rewrite Hl. unfold missed. rewrite app_nil_r. reflexivity.
      * rewrite Hc'. rewrite length_app. cbn [List.length].
        change (coins s3) with (coins s + 1)%Z. lia.
      * rewrite Hs. rewrite length_app. cbn [List.length].
        change (score s3) with (score s + 50).
        rewrite Nat.add_1_r, Nat2Z.inj_succ. unfold Z.succ.
        rewrite inject_Z_plus. change (inject_Z 1) with 1. lra.
      * clear - Hrest. subst s3. destruct s', s.
        unfold set_score, set_coins, set_coinsList in *.
        cbn [carX roadCurvature curveDirection curveTimer score coins speed
             obstacles coinsList scenery roadLines keys touchX horizonY]
          in *.
        congruence.
    + destruct (IH s) as (s' & Hrun & Hl & Hc' & Hs & Hrest); [lia |].
      exists s'. split; [exact Hrun |].
      unfold collected, missed in *.
      rewrite (skipn_nth_cons _ _ _ Hc) in Hl.
      split; [| split; [| split]].
      * rewrite Hl, <- app_assoc. reflexivity.
      * rewrite Hc', app_nil_r. reflexivity.
      * rewrite Hs, app_nil_r. reflexivity.
      * exact Hrest.
Qed.

Lemma coinHits_iff (s : State) (h : Q) (p : Box) (c : RoadObject) :
  coinHits P s h p c = true
  <-> exists proj, getProjection P s c h = Some proj /\ Overlaps 30 0 p proj.
Proof.
  unfold coinHits, Overlaps.
  destruct (getProjection P s c h) as [proj |].
  - destruct (JS.gtb (proj_y proj) (box_y p - 30)) eqn:E1;
      destruct (JS.ltb (proj_y proj) (box_y p + 30)) eqn:E2;
      cbn [andb].
    + rewrite andb_true_iff, JSFacts.gtb_gt, JSFacts.ltb_lt.
      apply JSFacts.gtb_gt in E1. apply JSFacts.ltb_lt in E2.
      split.
      * intros [H1 H2]. exists proj. repeat split; try assumption; lra.
      * intros (q & [= <-] & _ & H1 & H2). split; lra.
    + apply JSFacts.ltb_ge in E2.
      split; [discriminate |]. intros (q & [= <-] & [_ H] & _). lra.
    + apply JSFacts.ltb_ge in E1.
      split; [discriminate |]. intros (q & [= <-] & [H _] & _). lra.
    + apply JSFacts.ltb_ge in E1.
      split; [discriminate |]. intros (q & [= <-] & [H _] & _). lra.
  - split; [discriminate |]. intros (q & [=] & _).
Qed.

Lemma obstacleHits_iff (s : State) (h : Q) (p : Box) (o : RoadObject) :
  obstacleHits P s h p o = true
  <-> exists proj, getProjection P s o h = Some proj /\ Overlaps 20 20 p proj.
Proof.
  unfold obstacleHits, Overlaps, hitBoxPadding.
  destruct (getProjection P s o h) as [proj |].
  - destruct (JS.gtb (proj_y proj) (box_y p - 20)) eqn:E1;
      destruct (JS.ltb (proj_y proj) (box_y p + 20)) eqn:E2;
      cbn [andb].
    + rewrite andb_true_iff, JSFacts.gtb_gt, JSFacts.ltb_lt.
      apply JSFacts.gtb_gt in E1. apply JSFacts.ltb_lt in E2.
      split.
      * intros [H1 H2]. exists proj. repeat split; assumption.
      * intros (q & [= <-] & _ & H1 & H2). split; assumption.
    + apply JSFacts.ltb_ge in E2.
      split; [discriminate |]. intros (q & [= <-] & [_ H] & _). lra.
    + apply JSFacts.ltb_ge in E1.
      split; [discriminate |]. intros (q & [= <-] & [H _] & _). lra.
    + apply JSFacts.ltb_ge in E1.
      split; [discriminate |]. intros (q & [= <-] & [H _] & _). lra.
  - split; [discriminate |]. intros (q & [=] & _).
Qed.

(** C3.  The coin pass of a tick returns, and in the state it leaves every
    coin that the player overlaps (projected, inside the band of 30 around
    the player, meeting the unpadded box) is gone from the coin list, the
    other coins are kept in their order, the coin count has grown by one
    and the score by 50 for each coin removed, and nothing else changed. *)
Theorem coin_pass_resolves_all (h : Q) (p : Box) (s : State) :
  exists s',
    checkCoinCollisions P h p s = Some s'
    /\ coinsList s' = filter (missed P s h p) (coinsList s)
    /\ coins s'
       = (coins s
          + Z.of_nat (List.length (filter (coinHits P s h p) (coinsList s))))%Z
    /\ score s'
       == score s
          + 50 * inject_Z
                   (Z.of_nat
                      (List.length (filter (coinHits P s h p) (coinsList s))))
    /\ set_score (score s)
         (set_coins (coins s) (set_coinsList (coinsList s) s')) = s
    /\ (forall c,
          In c (coinsList s') <->
          In c (coinsList s)
          /\ ~ exists proj,
                 getProjection P s c h = Some proj /\ Overlaps 30 0 p proj).
Proof.
  destruct (coinLoop_spec h p (List.length (coinsList s)) s (le_n _))
    as (s' & Hrun & Hl & Hc & Hs & Hrest).
  unfold collected in Hc, Hs.
  rewrite firstn_all in Hl, Hc, Hs.
  rewrite skipn_all, app_nil_r in Hl.
  exists s'. repeat (split; [assumption |]).
  intro c. rewrite Hl, filter_In. unfold missed.
  rewrite negb_true_iff, <- not_true_iff_false, coinHits_iff.
  reflexivity.
Qed.

(** C2.  Where the horizon is not at the bottom edge (the divisor is not
    0), [getProjection] returns [null] exactly when the perspective
    [(y - horizon) / (gameHeight P - horizon)] is below 0 or above 1.2;
    otherwise it returns a projection at the object's depth whose width
    and height are the base sizes times the perspective and whose screen
    [x] is the viewport centre plus road width times lane times 0.25 plus
    curvature times [1 - perspective]; the road width is the linear
    interpolation between the top and the bottom width of the road. *)
Theorem getProjection_spec (s : State) (obj : RoadObject) (horizon : Q) :
  ~ gameHeight P == horizon ->
  let perspective := (obj_y obj - horizon) / (gameHeight P - horizon) in
  let roadWidth := roadWidthAt P perspective in
  (getProjection P s obj horizon = None
   <-> perspective < 0 \/ 1.2 < perspective)
  /\ (~ (perspective < 0 \/ 1.2 < perspective) ->
      exists proj,
        getProjection P s obj horizon = Some proj
        /\ proj_width proj = initialWidth obj * perspective
        /\ proj_height proj = initialHeight obj * perspective
        /\ proj_y proj = obj_y obj
        /\ proj_x proj
           = gameWidth P / 2 + roadWidth * obj_x obj * 0.25
             + roadCurvature s * (1 - perspective))
  /\ roadWidth
     == (1 - perspective) * (gameWidth P * TRACK_TOP_WIDTH_RATIO P)
        + perspective * (gameWidth P * TRACK_BOTTOM_WIDTH_RATIO P).
Proof.
  intros _ perspective roadWidth.
  assert (Hcull : JS.ltb perspective 0 || JS.gtb perspective 1.2 = true
                  <-> perspective < 0 \/ 1.2 < perspective).
  { rewrite orb_true_iff, JSFacts.ltb_lt, JSFacts.gtb_gt. reflexivity. }
  unfold getProjection, perspectiveOf. fold perspective.
  destruct (JS.ltb perspective 0 || JS.gtb perspective 1.2) eqn:E.
  - split; [| split].
    + split; [intros _; apply Hcull; reflexivity | reflexivity].
    + intro H. exfalso. apply H, Hcull. reflexivity.
    + unfold roadWidth, roadWidthAt. ring.
  - split; [| split].
    + split; [discriminate |].
      intro H. apply Hcull in H. discriminate.
    + intros _. eexists. split; [reflexivity |]. cbn.
      repeat split.
    + unfold roadWidth, roadWidthAt. ring.
Qed.

(** C7.  Whatever key and touch events precede a tick and whatever state
    they find, the [carX] that [drawPlayer] stores is the old one clamped:
    the old value when that lies in [-1.8, 1.8], -1.8 when it is below
    and 1.8 when it is above.  So it lies in [-1.8, 1.8]; the player's
    box is placed with it, and it is the [carX] of the state the
    collision checks of that tick run in. *)
Theorem carX_clamped_before_use (evs : list InputEvent) (rnd : TickRandom)
    (s : State) :
  let s0 := applyInputs evs s in
  let drawn := drawPlayer P (advanceObjects (updateRoadLines P (horizonY s0) s0)) in
  carX (fst drawn) = clampCarX (carX s0)
  /\ (-1.8 <= carX (fst drawn) /\ carX (fst drawn) <= 1.8)
  /\ box_x (snd drawn)
     = gameWidth P / 2
       + carX (fst drawn) * (gameWidth P * TRACK_BOTTOM_WIDTH_RATIO P) * 0.06
  /\ snd (beforeCollisions P rnd s0) = snd drawn
  /\ carX (fst (beforeCollisions P rnd s0)) = carX (fst drawn)
  /\ (-1.8 <= carX s0 /\ carX s0 <= 1.8 -> carX (fst drawn) == carX s0)
  /\ (carX s0 < -1.8 -> carX (fst drawn) == -1.8)
  /\ (1.8 < carX s0 -> carX (fst drawn) == 1.8).
Proof.
  intros s0 drawn.
  assert (Hc : carX (fst drawn) = clampCarX (carX s0)) by reflexivity.
  assert (Hval : forall x,
             (-1.8 <= x /\ x <= 1.8 -> clampCarX x == x)
             /\ (x < -1.8 -> clampCarX x == -1.8)
             /\ (1.8 < x -> clampCarX x == 1.8)).
  { intro x. unfold clampCarX, JS.max, JS.min.
    destruct (JS.ltb x 1.8) eqn:E1.
    - apply JSFacts.ltb_lt in E1.
      destruct (JS.ltb (-1.8) x) eqn:E2.
      + apply JSFacts.ltb_lt in E2. repeat split; intros; lra.
      + apply JSFacts.ltb_ge in E2. repeat split; intros; lra.
    - apply JSFacts.ltb_ge in E1.
      destruct (JS.ltb (-1.8) 1.8) eqn:E2.
      + repeat split; intros; lra.
      + apply JSFacts.ltb_ge in E2. exfalso. lra. }
  destruct (Hval (carX s0)) as (V1 & V2 & V3).
  split; [exact Hc |].
  split; [| split; [reflexivity | split; [| split; [| rewrite Hc; auto]]]].
  - rewrite Hc. unfold clampCarX. split.
    + apply JSFacts.max_ge_l.
    + destruct (JSFacts.max_cases (-1.8) (JS.min 1.8 (carX s0))) as [-> | ->].
      * lra.
      * apply JSFacts.min_le_l.
  - unfold beforeCollisions. fold drawn. destruct drawn. reflexivity.
  - unfold beforeCollisions. fold drawn. destruct drawn as [s3 player].
    cbn [fst snd]. unfold cleanup, spawnCoin, spawnObstacle.
    repeat match goal with |- context [if ?b then _ else _] => destruct b end;
      reflexivity.
Qed.


(** *** Which fields each step of a tick leaves alone *)

Lemma coin_pass_frame (a : Q) (b : Z) (c : list RoadObject) (s s' : State) :
  set_score a (set_coins b (set_coinsList c s')) = s ->
  carX s' = carX s /\ roadCurvature s' = roadCurvature s
  /\ curveDirection s' = curveDirection s /\ curveTimer s' = curveTimer s
  /\ scenery s' = scenery s /\ obstacles s' = obstacles s
  /\ keys s' = keys s /\ horizonY s' = horizonY s.
Proof.
  intros <-. destruct s'. cbn. repeat split.
Qed.

Ltac split_ifs :=
  repeat match goal with
         | |- context [if ?b then _ else _] => destruct b
         end.

Lemma beforeCollisions_frame (rnd : TickRandom) (s : State) :
  let s6 := fst (beforeCollisions P rnd s) in
  carX s6 = clampCarX (carX s) /\ roadCurvature s6 = roadCurvature s
  /\ curveDirection s6 = curveDirection s /\ curveTimer s6 = curveTimer s
  /\ score s6 = score s /\ coins s6 = coins s
  /\ keys s6 = keys s /\ horizonY s6 = horizonY s
  /\ scenery s6
     = map (fun o => recycle P (horizonY s) (advance s o)) (scenery s).
Proof.
  unfold beforeCollisions, drawPlayer, cleanup, spawnCoin, spawnObstacle.
  cbn [fst snd]. split_ifs; cbn; rewrite map_map; repeat split.
Qed.

Lemma moveCar_frame (s : State) :
  roadCurvature (moveCar s) = roadCurvature s
  /\ curveDirection (moveCar s) = curveDirection s
  /\ curveTimer (moveCar s) = curveTimer s
  /\ score (moveCar s) = score s /\ coins (moveCar s) = coins s
  /\ scenery (moveCar s) = scenery s.
Proof. unfold moveCar. split_ifs; cbn; repeat split. Qed.

Lemma retargetCurve_frame (rnd : TickRandom) (s : State) :
  roadCurvature (retargetCurve rnd s) = roadCurvature s
  /\ score (retargetCurve rnd s) = score s
  /\ coins (retargetCurve rnd s) = coins s
  /\ scenery (retargetCurve rnd s) = scenery s
  /\ (curveDirection (retargetCurve rnd s) = curveDirection s
      \/ curveDirection (retargetCurve rnd s) = 1
      \/ curveDirection (retargetCurve rnd s) = -1).
Proof. unfold retargetCurve. split_ifs; cbn; repeat split; auto. Qed.

Lemma afterCoins_frame (rnd : TickRandom) (s7 : State) :
  let s10 := afterCoins rnd s7 in
  let target := curveDirection s10 * 200 in
  roadCurvature s10
  = roadCurvature s7 + (target - roadCurvature s7) * 0.01
  /\ (curveDirection s10 = curveDirection s7
      \/ curveDirection s10 = 1 \/ curveDirection s10 = -1)
  /\ score s10 = score s7 + 0.5 /\ coins s10 = coins s7
  /\ scenery s10 = scenery s7.
Proof.
  destruct (moveCar_frame s7) as (M1 & M2 & _ & M4 & M5 & M6).
  destruct (retargetCurve_frame rnd (moveCar s7)) as (R1 & R2 & R3 & R4 & R5).
  unfold afterCoins, addTickScore, updateCurve, easeCurve.
  cbn [roadCurvature curveDirection score coins scenery
       set_score set_carX set_roadCurvature].
  rewrite R1, R2, R3, R4, M1, M4, M5, M6. rewrite M2 in R5.
  repeat split. exact R5.
Qed.

(** A tick always returns: either it finds an obstacle overlap, calls
    [onGameOver] and stops, or it runs to its end and reschedules. *)
Lemma render_cases (rnd : TickRandom) (s : State) :
  let s6 := fst (beforeCollisions P rnd s) in
  let player := snd (beforeCollisions P rnd s) in
  (collides P rnd s = true
   /\ render P rnd s
      = Some (s6, [onGameOver (JS.floor (score s6)) (coins s6)], false))
  \/ (collides P rnd s = false
      /\ exists s7,
           checkCoinCollisions P (horizonY s) player s6 = Some s7
           /\ render P rnd s
              = Some (afterCoins rnd s7, reportStats (afterCoins rnd s7),
                      true)).
Proof.
  unfold render, collides.
  destruct (beforeCollisions P rnd s) as [s6 player]. cbn [fst snd].
  destruct (checkEnemyCollisions P s6 (horizonY s) player (obstacles s6)).
  - left. split; reflexivity.
  - right. split; [reflexivity |].
    destruct (coinLoop_spec (horizonY s) player
                (List.length (coinsList s6)) s6 (le_n _))
      as (s7 & Hrun & _).
    exists s7. unfold checkCoinCollisions. rewrite Hrun.
    split; reflexivity.
Qed.

Lemma render_total (rnd : TickRandom) (s : State) :
  exists r, render P rnd s = Some r.
Proof.
  destruct (render_cases rnd s) as [[_ H] | [_ (s7 & _ & H)]];
    rewrite H; eexists; reflexivity.
Qed.

Lemma handleInput_frame (e : InputEvent) (s : State) :
  roadCurvature (handleInput s e) = roadCurvature s
  /\ curveDirection (handleInput s e) = curveDirection s
  /\ scenery (handleInput s e) = scenery s.
Proof.
  destruct e; cbn; try (repeat split; fail).
  unfold handleTouchMove. destruct (touchX s); repeat split.
Qed.

(** *** Sessions *)

Lemma runSession_total (frames : list Frame) :
  forall s, exists r, runSession P frames s = Some r.
Proof.
  induction frames as [| f rest IH]; intro s; cbn [runSession].
  - eexists. reflexivity.
  - destruct (render_total (random f) (applyInputs (inputs f) s))
      as ([[s1 calls] [|]] & ->).
    + destruct (IH s1) as ([[s2 calls2] again] & ->). eexists. reflexivity.
    + eexists. reflexivity.
Qed.

Lemma applyInputs_invariant (Inv : State -> Prop) :
  (forall e s, Inv s -> Inv (handleInput s e)) ->
  forall evs s, Inv s -> Inv (applyInputs evs s).
Proof.
  intros Hin evs. unfold applyInputs.
  induction evs as [| e evs IH]; intros s Hs; cbn [fold_left].
  - exact Hs.
  - apply IH, Hin, Hs.
Qed.

(** What inputs and ticks preserve holds at the end of a session. *)
Lemma runSession_invariant (Inv : State -> Prop) :
  (forall e s, Inv s -> Inv (handleInput s e)) ->
  (forall rnd s r, Inv s -> render P rnd s = Some r -> Inv (tick_state r)) ->
  forall frames s r,
    Inv s -> runSession P frames s = Some r -> Inv (tick_state r).
Proof.
  intros Hin Htick frames.
  induction frames as [| f rest IH]; intros s r Hs Hrun;
    cbn [runSession] in Hrun.
  - injection Hrun as <-. exact Hs.
  - destruct (render P (random f) (applyInputs (inputs f) s))
      as [[[s1 calls] again] |] eqn:Hr; [| discriminate].
    assert (H1 : Inv s1).
    { apply (Htick _ _ _ (applyInputs_invariant Inv Hin _ _ Hs) Hr). }
    destruct again.
    + destruct (runSession P rest s1) as [[[s2 calls2] again2] |] eqn:Hrest;
        [| discriminate].
      injection Hrun as <-. apply (IH s1 _ H1 Hrest).
    + injection Hrun as <-. exact H1.
Qed.

Lemma render_scenery (rnd : TickRandom) (s : State) (r : TickResult) :
  render P rnd s = Some r ->
  scenery (tick_state r)
  = map (fun o => recycle P (horizonY s) (advance s o)) (scenery s).
Proof.
  intro Hr.
  destruct (beforeCollisions_frame rnd s) as (_ & _ & _ & _ & _ & _ & _ & _ & B).
  destruct (render_cases rnd s) as [[_ H] | [_ (s7 & Hc & H)]];
    rewrite H in Hr; injection Hr as <-; cbn [tick_state fst].
  - exact B.
  - destruct (afterCoins_frame rnd s7) as (_ & _ & _ & _ & A).
    rewrite A, <- B.
    unfold checkCoinCollisions in Hc.
    destruct (coinLoop_spec (horizonY s) (snd (beforeCollisions P rnd s))
                _ (fst (beforeCollisions P rnd s)) (le_n _))
      as (s7' & Hrun & _ & _ & _ & Hrest).
    rewrite Hc in Hrun. injection Hrun as <-.
    apply coin_pass_frame in Hrest. tauto.
Qed.

Lemma prepopulate_length (rnd : nat -> Q) (h : Q) (n : nat) :
  forall i sc,
    List.length (prepopulate P rnd h n i sc) = (List.length sc + 2 * n)%nat.
Proof.
  induction n as [| n IH]; intros i sc; cbn [prepopulate].
  - lia.
  - rewrite IH, !length_app. cbn [List.length]. lia.
Qed.

(** C8.  A tick returns and leaves a scenery list that is the old one with
    every object advanced and, when its depth then exceeds the bottom edge
    by more than 200, put back at 200 behind the horizon: same length,
    same objects in the same places.  Input events do not touch the list,
    so throughout a session it keeps the 20 objects [initGame] gave it. *)
Theorem scenery_recycled_never_resized (rnd : TickRandom) (s : State) :
  (exists r,
     render P rnd s = Some r
     /\ scenery (tick_state r)
        = map (fun o => recycle P (horizonY s) (advance s o)) (scenery s)
     /\ List.length (scenery (tick_state r)) = List.length (scenery s))
  /\ (forall h o,
        (gameHeight P + 200 < obj_y o ->
         recycle P h o = set_obj_y (h - 200) o)
        /\ (obj_y o <= gameHeight P + 200 -> recycle P h o = o))
  /\ (forall e, scenery (handleInput s e) = scenery s)
  /\ (forall rnd0 frames,
        exists r,
          runSession P frames (initGame P rnd0 s) = Some r
          /\ List.length (scenery (tick_state r)) = 20%nat).
Proof.
  split; [| split; [| split]].
  - destruct (render_total rnd s) as [r Hr]. exists r.
    split; [exact Hr |].
    rewrite (render_scenery rnd s r Hr). split; [reflexivity |].
    apply length_map.
  - intros h o. unfold recycle. split; intro H.
    + apply JSFacts.gtb_gt in H. rewrite H. reflexivity.
    + apply JSFacts.ltb_ge in H. unfold JS.gtb. rewrite H. reflexivity.
  - intro e. apply handleInput_frame.
  - intros rnd0 frames.
    destruct (runSession_total frames (initGame P rnd0 s)) as [r Hr].
    exists r. split; [exact Hr |].
    apply (runSession_invariant
             (fun st => List.length (scenery st) = 20%nat)) with (4 := Hr).
    + intros e st Hst.
      destruct (handleInput_frame e st) as (_ & _ & ->). exact Hst.
    + intros rnd1 st r1 Hst Hr1.
      rewrite (render_scenery rnd1 st r1 Hr1), length_map. exact Hst.
    + cbn [initGame scenery]. rewrite prepopulate_length. reflexivity.
Qed.

(** *** Curvature *)

Lemma tick_state_mk (s : State) (calls : list Callback) (again : bool) :
  tick_state (s, calls, again) = s.
Proof. reflexivity. Qed.

Lemma easeCurve_distance (s : State) :
  let target := curveDirection s * 200 in
  target - roadCurvature (easeCurve s) == 0.99 * (target - roadCurvature s).
Proof. unfold easeCurve. cbn. ring. Qed.

Lemma easeCurve_direction (s : State) :
  curveDirection (easeCurve s) = curveDirection s.
Proof. reflexivity. Qed.

Lemma easeCurve_iter_direction (n : nat) (s : State) :
  curveDirection (Nat.iter n easeCurve s) = curveDirection s.
Proof.
  induction n as [| n IH]; [reflexivity |].
  change (Nat.iter (S n) easeCurve s) with (easeCurve (Nat.iter n easeCurve s)).
  rewrite easeCurve_direction. exact IH.
Qed.

(** C9, as the code has it.  A tick returns; when it runs to its end, the
    curvature it leaves is the old one plus 0.01 times the distance from
    the old one to direction times 200, and the tick that an obstacle
    overlap ends leaves the curvature as it was.  Either way the curvature moves by at most
    0.01 of that distance, and does not land on the target unless it was
    there: an easing step leaves 0.99 of the distance, so no number of
    steps closes it. *)
Theorem curvature_eases_by_fraction (rnd : TickRandom) (s : State) :
  (exists r,
     render P rnd s = Some r
     /\ let s' := tick_state r in
        let target := curveDirection s' * 200 in
        roadCurvature s'
        = (if tick_rescheduled r
           then roadCurvature s + (target - roadCurvature s) * 0.01
           else roadCurvature s)
        /\ Qabs (roadCurvature s' - roadCurvature s)
           <= 0.01 * Qabs (target - roadCurvature s)
        /\ (tick_rescheduled r = true ->
            target - roadCurvature s' == 0.99 * (target - roadCurvature s))
        /\ (~ roadCurvature s == target -> ~ roadCurvature s' == target))
  /\ (forall n,
        let target := curveDirection s * 200 in
        ~ roadCurvature s == target ->
        ~ roadCurvature (Nat.iter n easeCurve s) == target).
Proof.
  split.
  - destruct (beforeCollisions_frame rnd s)
      as (_ & B2 & B3 & _ & _ & _ & _ & _ & _).
    destruct (render_cases rnd s) as [[_ H] | [_ (s7 & Hc & H)]];
      rewrite H; eexists; (split; [reflexivity |]);
      cbn [tick_state tick_rescheduled fst snd].
    + rewrite B2, B3. split; [reflexivity |]. split; [| split].
      * setoid_replace (roadCurvature s - roadCurvature s) with 0 by ring.
        pose proof (Qabs_nonneg (curveDirection s * 200 - roadCurvature s))
          as Hnn.
        change (Qabs 0) with 0.
        revert Hnn. generalize (Qabs (curveDirection s * 200 - roadCurvature s)).
        intros d Hnn. lra.
      * discriminate.
      * tauto.
    + unfold checkCoinCollisions in Hc.
      destruct (coinLoop_spec (horizonY s) (snd (beforeCollisions P rnd s))
                  _ (fst (beforeCollisions P rnd s)) (le_n _))
        as (s7' & Hrun & _ & _ & _ & Hrest).
      rewrite Hc in Hrun. injection Hrun as <-.
      apply coin_pass_frame in Hrest.
      destruct Hrest as (_ & C2 & _).
      destruct (afterCoins_frame rnd s7) as (A1 & _).
      rewrite C2, B2 in A1.
      set (c' := roadCurvature (afterCoins rnd s7)) in *.
      set (t := curveDirection (afterCoins rnd s7) * 200) in *.
      split; [exact A1 |].
      assert (Hd : t - c' == 0.99 * (t - roadCurvature s)).
      { rewrite A1. ring. }
      split; [| split].
      * setoid_replace (c' - roadCurvature s)
          with (0.01 * (t - roadCurvature s)) by (rewrite A1; ring).
        rewrite Qabs_Qmult. change (Qabs 0.01) with 0.01.
        apply Qle_refl.
      * intros _. exact Hd.
      * intros Hne Heq. apply Hne.
        assert (Hz : 0.99 * (t - roadCurvature s) == 0) by (rewrite <- Hd; lra).
        lra.
  - intros n target. induction n as [| n IH]; intro Hne.
    + exact Hne.
    + specialize (IH Hne).
      change (Nat.iter (S n) easeCurve s)
        with (easeCurve (Nat.iter n easeCurve s)).
      pose proof (easeCurve_distance (Nat.iter n easeCurve s)) as Hd.
      cbn zeta in Hd. rewrite easeCurve_iter_direction in Hd.
      fold target in Hd. intro Heq. apply IH. lra.
Qed.

Lemma CurveInv_tick (rnd : TickRandom) (s : State) (r : TickResult) :
  CurveInv s -> render P rnd s = Some r -> CurveInv (tick_state r).
Proof.
  intros (Hd & Hlo & Hhi) Hr.
  destruct (beforeCollisions_frame rnd s)
    as (_ & B2 & B3 & _ & _ & _ & _ & _ & _).
  destruct (render_cases rnd s) as [[_ H] | [_ (s7 & Hc & H)]];
    rewrite H in Hr; unfold CurveInv.
  - replace (tick_state r) with (fst (beforeCollisions P rnd s))
      by (injection Hr as <-; reflexivity).
    rewrite B2, B3. tauto.
  - replace (tick_state r) with (afterCoins rnd s7)
      by (injection Hr as <-; reflexivity).
    unfold checkCoinCollisions in Hc.
    destruct (coinLoop_spec (horizonY s) (snd (beforeCollisions P rnd s))
                _ (fst (beforeCollisions P rnd s)) (le_n _))
      as (s7' & Hrun & _ & _ & _ & Hrest).
    rewrite Hc in Hrun. injection Hrun as <-.
    apply coin_pass_frame in Hrest.
    destruct Hrest as (_ & C2 & C3 & _).
    destruct (afterCoins_frame rnd s7) as (A1 & A2 & _).
    rewrite C2, B2 in A1. rewrite C3, B3 in A2.
    assert (Hd' : curveDirection (afterCoins rnd s7) = 1
                  \/ curveDirection (afterCoins rnd s7) = -1).
    { destruct A2 as [-> | [-> | ->]]; auto. }
    split; [exact Hd' |].
    rewrite A1. destruct Hd' as [-> | ->]; split; lra.
Qed.

Lemma CurveInv_reachable (s : State) : Reachable P s -> CurveInv s.
Proof.
  induction 1 as [| rnd s _ IH | e s _ IH | rnd s r _ IH Hr].
  - unfold CurveInv. cbn. split; [auto | split; reflexivity].
  - destruct IH as (Hd & _). unfold CurveInv. cbn.
    split; [exact Hd | split; reflexivity].
  - destruct IH as (Hd & Hlo & Hhi).
    destruct (handleInput_frame e s) as (E1 & E2 & _).
    unfold CurveInv. rewrite E1, E2. tauto.
  - apply (CurveInv_tick rnd s r IH Hr).
Qed.

(** C10.  In every state the record reaches from its initial value by
    session initialisations, input events and ticks, the curve direction
    is 1 or -1 and the curvature lies strictly between -200 and 200. *)
Theorem curvature_below_amplitude (s : State) :
  Reachable P s ->
  Qabs (roadCurvature s) < 200
  /\ (curveDirection s = 1 \/ curveDirection s = -1).
Proof.
  intro Hs. destruct (CurveInv_reachable s Hs) as (Hd & Hlo & Hhi).
  split; [| exact Hd].
  apply Qabs_case; intros _; lra.
Qed.

(** *** Game over *)

Lemma checkEnemyCollisions_iff (s : State) (h : Q) (p : Box)
    (l : list RoadObject) :
  checkEnemyCollisions P s h p l = true
  <-> exists o, In o l /\ obstacleHits P s h p o = true.
Proof.
  induction l as [| a l IH]; cbn [checkEnemyCollisions].
  - split; [discriminate | intros (o & [] & _)].
  - destruct (obstacleHits P s h p a) eqn:Ha.
    + split; [| reflexivity]. intros _. exists a. split; [left |]; auto.
    + rewrite IH. split.
      * intros (o & Ho & Hhit). exists o. split; [right |]; assumption.
      * intros (o & [<- | Ho] & Hhit); [congruence |].
        exists o. split; assumption.
Qed.

Lemma collides_iff (rnd : TickRandom) (s : State) :
  collides P rnd s = true <-> ObstacleOverlap P rnd s.
Proof.
  unfold collides, ObstacleOverlap.
  destruct (beforeCollisions P rnd s) as [s6 player]. cbn [fst snd].
  rewrite checkEnemyCollisions_iff. split.
  - intros (o & Ho & Hhit). apply obstacleHits_iff in Hhit.
    destruct Hhit as (proj & Hp & Hov). exists o, proj. auto.
  - intros (o & proj & Ho & Hp & Hov). exists o. split; [exact Ho |].
    apply obstacleHits_iff. exists proj. auto.
Qed.

Lemma gameOverCount_app (l1 l2 : list Callback) :
  gameOverCount (l1 ++ l2) = (gameOverCount l1 + gameOverCount l2)%nat.
Proof. unfold gameOverCount. rewrite filter_app, length_app. reflexivity. Qed.

Lemma reportStats_cases (s : State) :
  (Z.rem (JS.floor (score s)) 10 = 0%Z
   /\ reportStats s = [onScoreUpdate (JS.floor (score s)) (coins s)])
  \/ (Z.rem (JS.floor (score s)) 10 <> 0%Z /\ reportStats s = []).
Proof.
  unfold reportStats.
  destruct (Z.eqb_spec (Z.rem (JS.floor (score s)) 10) 0); auto.
Qed.

Lemma reportStats_no_game_over (s : State) :
  gameOverCount (reportStats s) = 0%nat.
Proof.
  destruct (reportStats_cases s) as [[_ ->] | [_ ->]]; reflexivity.
Qed.

Lemma runSession_game_over (frames : list Frame) :
  forall s,
  exists st calls again,
    runSession P frames s = Some (st, calls, again)
    /\ gameOverCount calls = (if again then 0 else 1)%nat
    /\ (again = false <-> ReachesCollision P frames s).
Proof.
  induction frames as [| f rest IH]; intro s.
  - exists s, [], true. repeat split; try discriminate.
    intros (before & f & after & s1 & calls & E & _).
    destruct before; discriminate.
  - cbn [runSession].
    set (s0 := applyInputs (inputs f) s).
    destruct (render_cases (random f) s0) as [[Hc H] | [Hc (s7 & _ & H)]];
      rewrite H.
    + eexists _, _, false. repeat split.
      intros _. exists [], f, rest, s, []. repeat split. exact Hc.
    + destruct (IH (afterCoins (random f) s7))
        as (st & calls & again & Hrun & Hcount & Hiff).
      rewrite Hrun. eexists _, _, again. split; [reflexivity |].
      split.
      * rewrite gameOverCount_app, reportStats_no_game_over. exact Hcount.
      * rewrite Hiff. split.
        -- intros (before & f' & after & s1 & calls1 & E & Hb & Hcol).
           exists (f :: before), f', after, s1.
           eexists. split; [rewrite E; reflexivity |].
           split; [| exact Hcol].
           cbn [runSession]. fold s0. rewrite H, Hb. reflexivity.
        -- intros (before & f' & after & s1 & calls1 & E & Hb & Hcol).
           destruct before as [| f0 before].
           ++ cbn in E. injection E as <- <-.
              cbn [runSession] in Hb. injection Hb as <- _.
              unfold s0 in Hc. congruence.
           ++ cbn in E. injection E as <- ->.
              cbn [runSession] in Hb. fold s0 in Hb. rewrite H in Hb.
              destruct (runSession P before (afterCoins (random f) s7))
                as [[[s2 calls2] again2] |] eqn:Hb2; [| discriminate].
              exists before, f', after, s1, calls2.
              split; [reflexivity |]. split; [| exact Hcol].
              injection Hb as -> _ ->. exact Hb2.
Qed.

(** C1.  When some obstacle overlaps the player in a tick, the tick calls
    [onGameOver] once, with the floored score and the coin count, calls
    nothing else, requests no further frame, and leaves the state as it
    was when the collision checks began: score, coin count, curvature,
    curve timer and direction are the ones of the tick's start and [carX]
    is the clamped one.  Without an overlap the tick runs to its end,
    reschedules itself and does not call [onGameOver].  Hence a session
    calls [onGameOver] at most once, and once exactly when it reaches a
    collision. *)
Theorem game_over_on_first_overlap (rnd : TickRandom) (s : State)
    (frames : list Frame) :
  let s6 := fst (beforeCollisions P rnd s) in
  (ObstacleOverlap P rnd s ->
   render P rnd s
   = Some (s6, [onGameOver (JS.floor (score s)) (coins s)], false)
   /\ score s6 = score s /\ coins s6 = coins s
   /\ carX s6 = clampCarX (carX s)
   /\ roadCurvature s6 = roadCurvature s
   /\ curveTimer s6 = curveTimer s
   /\ curveDirection s6 = curveDirection s)
  /\ (~ ObstacleOverlap P rnd s ->
      exists r,
        render P rnd s = Some r
        /\ tick_rescheduled r = true
        /\ gameOverCount (tick_calls r) = 0%nat)
  /\ (exists st calls again,
        runSession P frames s = Some (st, calls, again)
        /\ (gameOverCount calls <= 1)%nat
        /\ (gameOverCount calls = 1%nat <-> ReachesCollision P frames s)
        /\ (again = false <-> ReachesCollision P frames s)).
Proof.
  intro s6.
  destruct (beforeCollisions_frame rnd s)
    as (B1 & B2 & B3 & B4 & B5 & B6 & _).
  fold s6 in B1, B2, B3, B4, B5, B6.
  split; [| split].
  - intro Hov. apply collides_iff in Hov.
    destruct (render_cases rnd s) as [[_ H] | [Hc _]]; [| congruence].
    fold s6 in H. rewrite B5, B6 in H. auto 10.
  - intro Hno.
    destruct (render_cases rnd s) as [[Hc _] | [_ (s7 & _ & H)]].
    + apply collides_iff in Hc. contradiction.
    + eexists. split; [exact H |]. split; [reflexivity |].
      apply reportStats_no_game_over.
  - destruct (runSession_game_over frames s)
      as (st & calls & again & Hrun & Hcount & Hiff).
    exists st, calls, again. split; [exact Hrun |].
    rewrite <- Hiff, Hcount.
    destruct again; repeat split; try lia; try congruence.
Qed.

(** *** Score reports *)

(** C5, as the code has it.  A tick returns and calls [onScoreUpdate] at
    most once: exactly when it runs to its end and the floor of the score
    it leaves is a multiple of 10, and then with that floor and the coin
    count it leaves. *)
Theorem score_report_on_multiples (rnd : TickRandom) (s : State) :
  exists r,
    render P rnd s = Some r
    /\ scoreUpdates (tick_calls r)
       = (if tick_rescheduled r
             && (Z.rem (JS.floor (score (tick_state r))) 10 =? 0)%Z
          then [onScoreUpdate (JS.floor (score (tick_state r)))
                  (coins (tick_state r))]
          else [])
    /\ (List.length (scoreUpdates (tick_calls r)) <= 1)%nat.
Proof.
  destruct (render_cases rnd s) as [[_ H] | [_ (s7 & _ & H)]];
    rewrite H; eexists; (split; [reflexivity |]).
  - split; [reflexivity | cbn; lia].
  - unfold tick_calls, tick_rescheduled, tick_state. cbn [fst snd andb].
    destruct (reportStats_cases (afterCoins rnd s7)) as [[E ->] | [E ->]].
    + rewrite E. cbn. split; [reflexivity | lia].
    + apply Z.eqb_neq in E. rewrite E. cbn. split; [reflexivity | lia].
Qed.

(** *** Session initialisation *)

(** C4, as the code has it.  [initGame] sets the horizon to 0.4 of the
    viewport height, lays 12 road lines from the horizon on, one twelfth
    of the distance to the bottom edge apart, empties the obstacle and
    coin lists, fills the scenery list with 20 objects that alternate
    between the two roadsides at depths horizon plus random times height,
    and zeroes [carX], curvature, score and coins and sets the speed to
    the base constant, whatever the previous record held; running it again
    gives the same.  Curve timer, curve direction, key map and touch
    origin are those of the previous record. *)
Theorem initGame_resets_session_fields (rnd rnd' : nat -> Q) (prev : State) :
  let s := initGame P rnd prev in
  let h := gameHeight P * 0.4 in
  let d := mkLine 0 in
  (horizonY s = h
   /\ List.length (roadLines s) = 12%nat
   /\ line_y (nth 0 (roadLines s) d) == h
   /\ (forall i, (i < 11)%nat ->
         line_y (nth (S i) (roadLines s) d) - line_y (nth i (roadLines s) d)
         == (gameHeight P - h) / 12)
   /\ obstacles s = [] /\ coinsList s = []
   /\ scenery s
      = map (fun k => sceneryAt P (if Nat.even k then -2.5 else 2.5) h (rnd k))
          (seq 0 20)
   /\ carX s = 0 /\ roadCurvature s = 0 /\ score s = 0 /\ coins s = 0%Z
   /\ speed s = ROAD_SPEED_BASE P)
  /\ (curveTimer s = curveTimer prev
      /\ curveDirection s = curveDirection prev
      /\ keys s = keys prev /\ touchX s = touchX prev)
  /\ initGame P rnd (initGame P rnd' prev) = s
  /\ (forall prev',
        curveTimer prev' = curveTimer prev ->
        curveDirection prev' = curveDirection prev ->
        keys prev' = keys prev -> touchX prev' = touchX prev ->
        initGame P rnd prev' = s).
Proof.
  intros s h d. split; [| split; [| split]].
  - repeat split.
    + unfold s, h, initGame, initRoadLines.
      cbn [roadLines map seq nth line_y Z.of_nat]. unfold inject_Z. field.
    + intros i Hi. unfold s, h, initGame, initRoadLines.
      cbn [roadLines map seq].
      do 11 (destruct i as [| i];
             [cbn [nth line_y Z.of_nat Pos.of_succ_nat Pos.succ];
              unfold inject_Z; field |]).
      lia.
  - repeat split.
  - reflexivity.
  - intros prev' E1 E2 E3 E4. unfold s, initGame.
    rewrite E1, E2, E3, E4. reflexivity.
Qed.

End WithProps.

(** *** The properties at sample inputs *)

(** A tick of [crashState] ends the game: the obstacle at depth 515 in
    lane 0 is moved to 525, inside the band around the player at 520. *)
Lemma game_over_on_first_overlap_witness :
  ObstacleOverlap sampleProps quietRandom crashState
  /\ render sampleProps quietRandom crashState
     = Some (fst (beforeCollisions sampleProps quietRandom crashState),
             [onGameOver 0 0], false).
Proof.
  assert (H : ObstacleOverlap sampleProps quietRandom crashState).
  { apply collides_iff. vm_compute. reflexivity. }
  split; [exact H |].
  apply (proj1 (game_over_on_first_overlap sampleProps quietRandom
                  crashState []) H).
Defined.

(** The state one tick into the first session is reachable, and its
    curvature is inside the amplitude. *)
Lemma curvature_below_amplitude_witness :
  Reachable sampleProps afterOneTick
  /\ Qabs (roadCurvature afterOneTick) < 200.
Proof.
  assert (H : Reachable sampleProps afterOneTick).
  { unfold afterOneTick.
    destruct (render sampleProps quietRandom firstSession) as [r |] eqn:E.
    - apply (reach_tick sampleProps quietRandom firstSession r);
        [apply reach_init, reach_mount | exact E].
    - apply reach_init, reach_mount. }
  split; [exact H |].
  apply (proj1 (curvature_below_amplitude sampleProps afterOneTick H)).
Defined.

(** The viewport has a height: the coin at depth 300 is projected. *)
Lemma getProjection_spec_witness :
  getProjection sampleProps firstSession (coinAt 0 300) 240 = None
  <-> (300 - 240) / (600 - 240) < 0 \/ 1.2 < (300 - 240) / (600 - 240).
Proof.
  assert (Hne : ~ gameHeight sampleProps == 240).
  { intro H. vm_compute in H. discriminate H. }
  apply (proj1 (getProjection_spec sampleProps firstSession (coinAt 0 300)
                  240 Hne)).
Defined.

(** Not C9: the tick that the obstacle of [crashState] ends leaves the
    curvature at 0, where easing towards 200 would have set it to 2. *)
Lemma collision_tick_skips_easing :
  exists r,
    render sampleProps quietRandom crashState = Some r
    /\ tick_rescheduled r = false
    /\ roadCurvature (tick_state r) == 0
    /\ roadCurvature crashState
       + (curveDirection (tick_state r) * 200 - roadCurvature crashState)
         * 0.01
       == 2
    /\ ~ roadCurvature (tick_state r)
         == roadCurvature crashState
            + (curveDirection (tick_state r) * 200
               - roadCurvature crashState) * 0.01.
Proof.
  eexists. split; [vm_compute; reflexivity |].
  split; [reflexivity |]. split; [vm_compute; reflexivity |].
  split; [vm_compute; reflexivity |].
  vm_compute. discriminate.
Qed.

(** Two coins next to each other in the list are collected in one tick;
    the coins out of reach stay, in their order. *)
Example two_adjacent_coins_collected :
  exists s calls,
    render sampleProps quietRandom coinState = Some (s, calls, true)
    /\ map obj_y (coinsList s) = [310; 410]
    /\ coins s = 2%Z /\ score s == 100.5
    /\ calls = [onScoreUpdate 100 2].
Proof.
  vm_compute. eexists _, _. repeat split.
Qed.

(** Not C5: the score 10 is reported by two ticks of one session, the
    tick that brings the score to 10 and the next, which brings it to
    10.5. *)
Lemma score_ten_reported_twice :
  exists s calls,
    runSession sampleProps [quietFrame; quietFrame] midSession
    = Some (s, calls, true)
    /\ calls = [onScoreUpdate 10 0; onScoreUpdate 10 0]
    /\ scoreUpdateCount 10 calls = 2%nat.
Proof.
  vm_compute. eexists _, _. repeat split.
Qed.

(** Not C4: after [initGame] the record still holds the curve timer, the
    curve direction, the pressed key and the touch origin of the previous
    session, so the new session differs from the one that starts from the
    initial record. *)
Lemma initGame_keeps_input_and_curve_fields :
  let s := initGame sampleProps (fun _ => 0.5) leftoverState in
  curveTimer s = 57 /\ curveDirection s = -1
  /\ keys s "a"%string = true /\ touchX s = Some 120
  /\ s <> initGame sampleProps (fun _ => 0.5) stateRef0.
Proof.
  cbn zeta. repeat split.
  intro H. apply (f_equal touchX) in H. discriminate H.
Qed.

(** *** Further properties of the tick *)

Section Further.

Variable P : Props.

Ltac split_ifs :=
  repeat match goal with
         | |- context [if ?b then _ else _] => destruct b
         end.

Lemma spawnObstacle_lists (rnd : TickRandom) (h : Q) (s1 s2 : State) :
  obstacles s1 = obstacles s2 ->
  obstacles (spawnObstacle rnd h s1) = obstacles (spawnObstacle rnd h s2)
  /\ coinsList (spawnObstacle rnd h s1) = coinsList s1.
Proof.
  intro E. unfold spawnObstacle. rewrite E.
  destruct (JS.ltb (rObstacleSpawn rnd) 0.02
            && Nat.ltb (List.length (obstacles s2)) 5);
    cbn; rewrite ?E; split; reflexivity.
Qed.

Lemma spawnCoin_lists (rnd : TickRandom) (h : Q) (s1 s2 : State) :
  coinsList s1 = coinsList s2 ->
  coinsList (spawnCoin rnd h s1) = coinsList (spawnCoin rnd h s2)
  /\ obstacles (spawnCoin rnd h s1) = obstacles s1.
Proof.
  intro E. unfold spawnCoin.
  destruct (JS.ltb (rCoinSpawn rnd) 0.03); cbn; rewrite ?E; split;
    reflexivity.
Qed.

Lemma beforeCollisions_lists (rnd : TickRandom) (s : State) :
  let s6 := fst (beforeCollisions P rnd s) in
  obstacles s6
  = filter (inPlay P)
      (obstacles (spawnObstacle rnd (horizonY s) (advanceObjects s)))
  /\ coinsList s6
     = filter (inPlay P)
         (coinsList (spawnCoin rnd (horizonY s) (advanceObjects s)))
  /\ roadLines s6 = map (updateLine P s (horizonY s)) (roadLines s)
  /\ speed s6 = speed s /\ touchX s6 = touchX s.
Proof.
  unfold beforeCollisions, drawPlayer. cbn [fst].
  set (s3 := set_carX _ _).
  set (s4 := spawnObstacle rnd (horizonY s) s3).
  assert (E3 : obstacles s3 = obstacles (advanceObjects s)) by reflexivity.
  destruct (spawnObstacle_lists rnd (horizonY s) s3 (advanceObjects s) E3)
    as (O1 & O2). fold s4 in O1, O2.
  assert (E4 : coinsList s4 = coinsList (advanceObjects s))
    by (rewrite O2; reflexivity).
  destruct (spawnCoin_lists rnd (horizonY s) s4 (advanceObjects s) E4)
    as (C1 & C2).
  unfold cleanup.
  cbn [obstacles coinsList roadLines speed touchX
       set_scenery set_coinsList set_obstacles].
  rewrite C1, C2, O1.
  repeat split; unfold spawnCoin, s4, spawnObstacle; split_ifs; reflexivity.
Qed.

Lemma coin_pass_rest (a : Q) (b : Z) (c : list RoadObject) (s s' : State) :
  set_score a (set_coins b (set_coinsList c s')) = s ->
  roadLines s' = roadLines s /\ speed s' = speed s /\ touchX s' = touchX s.
Proof. intros <-. destruct s'. cbn. repeat split. Qed.

Lemma afterCoins_rest (rnd : TickRandom) (s7 : State) :
  let s10 := afterCoins rnd s7 in
  obstacles s10 = obstacles s7 /\ coinsList s10 = coinsList s7
  /\ roadLines s10 = roadLines s7 /\ speed s10 = speed s7
  /\ keys s10 = keys s7 /\ touchX s10 = touchX s7
  /\ horizonY s10 = horizonY s7.
Proof.
  unfold afterCoins, addTickScore, updateCurve, easeCurve, retargetCurve,
    moveCar.
  split_ifs; cbn; repeat split.
Qed.

(** What a tick that returned [r] did, in terms of the state [s6] its
    collision checks ran in. *)
Lemma render_inv (rnd : TickRandom) (s : State) (r : TickResult) :
  render P rnd s = Some r ->
  let s6 := fst (beforeCollisions P rnd s) in
  let player := snd (beforeCollisions P rnd s) in
  (tick_rescheduled r = false /\ tick_state r = s6
   /\ collides P rnd s = true)
  \/ (tick_rescheduled r = true /\ collides P rnd s = false
      /\ exists s7,
           tick_state r = afterCoins rnd s7
           /\ tick_calls r = reportStats (afterCoins rnd s7)
           /\ coinsList s7
              = filter (missed P s6 (horizonY s) player) (coinsList s6)
           /\ coins s7
              = (coins s6
                 + Z.of_nat (List.length
                               (filter (coinHits P s6 (horizonY s) player)
                                  (coinsList s6))))%Z
           /\ score s7
              == score s6
                 + 50 * inject_Z
                          (Z.of_nat
                             (List.length
                                (filter (coinHits P s6 (horizonY s) player)
                                   (coinsList s6))))
           /\ set_score (score s6)
                (set_coins (coins s6) (set_coinsList (coinsList s6) s7))
              = s6).
Proof.
  intros Hr s6 player.
  destruct (render_cases P rnd s) as [[Hc H] | [Hc (s7 & Hpass & H)]];
    rewrite H in Hr; injection Hr as <-.
  - left. repeat split. exact Hc.
  - right. split; [reflexivity |]. split; [exact Hc |].
    exists s7. split; [reflexivity |]. split; [reflexivity |].
    unfold checkCoinCollisions in Hpass.
    destruct (coinLoop_spec P (horizonY s) player _ s6 (le_n _))
      as (s7' & Hrun & Hl & Hn & Hs & Hrest).
    fold s6 player in Hpass. rewrite Hpass in Hrun. injection Hrun as <-.
    unfold collected in Hn, Hs.
    rewrite firstn_all in Hl, Hn, Hs. rewrite skipn_all, app_nil_r in Hl.
    auto.
Qed.

(** A tick writes neither the key map, nor the touch origin, nor the
    horizon, nor the speed. *)
Lemma render_keeps_settings (rnd : TickRandom) (s : State) (r : TickResult) :
  render P rnd s = Some r ->
  keys (tick_state r) = keys s /\ touchX (tick_state r) = touchX s
  /\ horizonY (tick_state r) = horizonY s /\ speed (tick_state r) = speed s.
Proof.
  intro Hr.
  destruct (beforeCollisions_frame P rnd s)
    as (_ & _ & _ & _ & _ & _ & B7 & B8 & _).
  destruct (beforeCollisions_lists rnd s) as (_ & _ & _ & L4 & L5).
  destruct (render_inv rnd s r Hr)
    as [(_ & -> & _) | (_ & _ & s7 & -> & _ & _ & _ & _ & Hrest)].
  - auto.
  - destruct (afterCoins_rest rnd s7) as (_ & _ & _ & A4 & A5 & A6 & A7).
    destruct (coin_pass_frame _ _ _ _ _ Hrest)
      as (_ & _ & _ & _ & _ & _ & C7 & C8).
    destruct (coin_pass_rest _ _ _ _ _ Hrest) as (_ & D2 & D3).
    rewrite A4, A5, A6, A7, C7, C8, D2, D3. auto.
Qed.

Lemma render_obstacles (rnd : TickRandom) (s : State) (r : TickResult) :
  render P rnd s = Some r ->
  obstacles (tick_state r)
  = filter (inPlay P)
      (obstacles (spawnObstacle rnd (horizonY s) (advanceObjects s))).
Proof.
  intro Hr.
  destruct (beforeCollisions_lists rnd s) as (L1 & _).
  destruct (render_inv rnd s r Hr)
    as [(_ & -> & _) | (_ & _ & s7 & -> & _ & _ & _ & _ & Hrest)].
  - exact L1.
  - destruct (afterCoins_rest rnd s7) as (A1 & _).
    destruct (coin_pass_frame _ _ _ _ _ Hrest)
      as (_ & _ & _ & _ & _ & C6 & _).
    rewrite A1, C6. exact L1.
Qed.

Lemma filter_length_le {A : Type} (f : A -> bool) (l : list A) :
  (List.length (filter f l) <= List.length l)%nat.
Proof.
  induction l as [| a l IH]; cbn [filter List.length]; [lia |].
  destruct (f a); cbn [List.length]; lia.
Qed.

Lemma spawnObstacle_cap (rnd : TickRandom) (h : Q) (s : State) :
  (List.length (obstacles s) <= 5)%nat ->
  (List.length (obstacles (spawnObstacle rnd h s)) <= 5)%nat.
Proof.
  intro H. unfold spawnObstacle.
  destruct (JS.ltb (rObstacleSpawn rnd) 0.02); cbn [andb]; [| exact H].
  destruct (Nat.ltb_spec (List.length (obstacles s)) 5); [| exact H].
  cbn [obstacles set_obstacles]. rewrite length_app. cbn [List.length]. lia.
Qed.

(** X1.  The obstacle list never holds more than 5 obstacles: not in the
    initial record, not after [initGame], an input event or a tick. *)
Theorem obstacles_capped (s : State) :
  Reachable P s -> (List.length (obstacles s) <= 5)%nat.
Proof.
  induction 1 as [| rnd s _ IH | e s _ IH | rnd s r _ IH Hr].
  - cbn. lia.
  - cbn. lia.
  - replace (obstacles (handleInput s e)) with (obstacles s); [exact IH |].
    destruct e; cbn; try reflexivity.
    unfold handleTouchMove. destruct (touchX s); reflexivity.
  - rewrite (render_obstacles rnd s r Hr).
    eapply Nat.le_trans; [apply filter_length_le |].
    apply spawnObstacle_cap.
    unfold advanceObjects. cbn [obstacles set_scenery set_coinsList
                                set_obstacles].
    rewrite length_map. exact IH.
Qed.

(** X2.  After a tick, whether it ended the game or not, every obstacle
    and every coin left in the lists has a depth below the bottom edge
    plus 100: the ones the tick advanced past that are gone. *)
Theorem passed_objects_dropped (rnd : TickRandom) (s : State) :
  exists r,
    render P rnd s = Some r
    /\ Forall (fun o => obj_y o < gameHeight P + 100)
         (obstacles (tick_state r))
    /\ Forall (fun o => obj_y o < gameHeight P + 100)
         (coinsList (tick_state r))
    /\ (forall o,
          In o (obstacles s) ->
          gameHeight P + 100 <= obj_y o + speed s ->
          ~ In (advance s o) (obstacles (tick_state r))).
Proof.
  destruct (render_total P rnd s) as [r Hr]. exists r.
  split; [exact Hr |].
  assert (Hin : forall o, inPlay P o = true <-> obj_y o < gameHeight P + 100).
  { intro o. apply JSFacts.ltb_lt. }
  pose proof (render_obstacles rnd s r Hr) as Ho.
  destruct (beforeCollisions_lists rnd s) as (_ & L2 & _).
  split; [| split].
  - rewrite Ho. apply Forall_forall. intros o Hf.
    apply filter_In in Hf. apply Hin, Hf.
  - destruct (render_inv rnd s r Hr)
      as [(_ & -> & _) | (_ & _ & s7 & -> & _ & Hl & _)].
    + rewrite L2. apply Forall_forall. intros o Hf.
      apply filter_In in Hf. apply Hin, Hf.
    + destruct (afterCoins_rest rnd s7) as (_ & A2 & _).
      rewrite A2, Hl, L2. apply Forall_forall. intros o Hf.
      apply filter_In in Hf. destruct Hf as [Hf _].
      apply filter_In in Hf. apply Hin, Hf.
  - intros o _ Hpast Hf. rewrite Ho in Hf.
    apply filter_In in Hf. destruct Hf as [_ Hf].
    apply Hin in Hf. cbn in Hf. lra.
Qed.

Lemma handleInput_rest (e : InputEvent) (s : State) :
  score (handleInput s e) = score s /\ coins (handleInput s e) = coins s
  /\ coinsList (handleInput s e) = coinsList s
  /\ obstacles (handleInput s e) = obstacles s
  /\ roadLines (handleInput s e) = roadLines s
  /\ speed (handleInput s e) = speed s
  /\ horizonY (handleInput s e) = horizonY s.
Proof.
  destruct e; cbn; try (repeat split; fail).
  unfold handleTouchMove. destruct (touchX s); repeat split.
Qed.

Lemma applyInputs_rest (evs : list InputEvent) (s : State) :
  score (applyInputs evs s) = score s /\ coins (applyInputs evs s) = coins s
  /\ coinsList (applyInputs evs s) = coinsList s
  /\ obstacles (applyInputs evs s) = obstacles s.
Proof.
  apply (applyInputs_invariant
           (fun st => score st = score s /\ coins st = coins s
                      /\ coinsList st = coinsList s
                      /\ obstacles st = obstacles s)).
  - intros e st (H1 & H2 & H3 & H4).
    destruct (handleInput_rest e st) as (-> & -> & -> & -> & _). auto.
  - auto.
Qed.

Lemma twelfth_between (h H k : Q) :
  0 <= k -> k <= 12 -> h <= H ->
  h <= h + k * (H - h) / 12 /\ h + k * (H - h) / 12 <= H.
Proof.
  intros Hk0 Hk12 HhH.
  setoid_replace (h + k * (H - h) / 12) with (h + (k * (H - h)) * (1 # 12))
    by field.
  assert (0 <= k * (H - h)) by (apply Qmult_le_0_compat; lra).
  assert (0 <= (12 - k) * (H - h)) by (apply Qmult_le_0_compat; lra).
  split; nra.
Qed.

(** X3.  With a viewport of positive height and a base speed that is not
    negative, a session keeps its 12 road lines, each between the horizon
    and the bottom edge, however long it runs; and it runs at the base
    speed with the horizon at 0.4 of the height throughout. *)
Theorem road_lines_stay_on_road (rnd0 : nat -> Q) (prev : State)
    (frames : list Frame) :
  0 < gameHeight P -> 0 <= ROAD_SPEED_BASE P ->
  exists r,
    runSession P frames (initGame P rnd0 prev) = Some r
    /\ List.length (roadLines (tick_state r)) = 12%nat
    /\ Forall (fun l => gameHeight P * 0.4 <= line_y l
                        /\ line_y l <= gameHeight P)
         (roadLines (tick_state r))
    /\ speed (tick_state r) = ROAD_SPEED_BASE P
    /\ horizonY (tick_state r) = gameHeight P * 0.4.
Proof.
  intros HH Hspeed.
  destruct (runSession_total P frames (initGame P rnd0 prev)) as [r Hr].
  exists r. split; [exact Hr |].
  set (Inv := fun st : State =>
         List.length (roadLines st) = 12%nat
         /\ Forall (fun l => gameHeight P * 0.4 <= line_y l
                             /\ line_y l <= gameHeight P) (roadLines st)
         /\ speed st = ROAD_SPEED_BASE P
         /\ horizonY st = gameHeight P * 0.4).
  apply (runSession_invariant P Inv) with (4 := Hr); unfold Inv.
  - intros e st (H1 & H2 & H3 & H4).
    destruct (handleInput_rest e st) as (_ & _ & _ & _ & -> & -> & ->).
    auto.
  - intros rnd st r1 (H1 & H2 & H3 & H4) Hr1.
    destruct (render_keeps_settings rnd st r1 Hr1) as (_ & _ & K3 & K4).
    assert (Hl : roadLines (tick_state r1)
                 = map (updateLine P st (horizonY st)) (roadLines st)).
    { destruct (beforeCollisions_lists rnd st) as (_ & _ & L3 & _).
      destruct (render_inv rnd st r1 Hr1)
        as [(_ & -> & _) | (_ & _ & s7 & -> & _ & _ & _ & _ & Hrest)].
      - exact L3.
      - destruct (afterCoins_rest rnd s7) as (_ & _ & A3 & _).
        destruct (coin_pass_rest _ _ _ _ _ Hrest) as (D1 & _).
        rewrite A3, D1. exact L3. }
    rewrite Hl, K3, K4, length_map. repeat split; try assumption.
    apply Forall_forall. intros l Hin.
    apply in_map_iff in Hin. destruct Hin as (l0 & <- & Hin).
    apply (proj1 (Forall_forall _ _) H2) in Hin.
    unfold updateLine. rewrite H3, H4.
    destruct (JS.gtb (line_y l0 + ROAD_SPEED_BASE P) (gameHeight P)) eqn:E;
      cbn [line_y].
    + lra.
    + apply JSFacts.ltb_ge in E. lra.
  - cbn [initGame roadLines speed horizonY]. repeat split.
    unfold initRoadLines. cbn [map seq].
    repeat (apply Forall_cons;
            [cbn [line_y Z.of_nat Pos.of_succ_nat Pos.succ];
             apply twelfth_between; unfold inject_Z; lra |]).
    apply Forall_nil.
Qed.

(** Score and coin count at the end of a tick that returned [r]. *)
Lemma render_score (rnd : TickRandom) (s : State) (r : TickResult) :
  render P rnd s = Some r ->
  (coins s <= coins (tick_state r))%Z
  /\ score (tick_state r)
     == score s
        + (if tick_rescheduled r then 0.5 else 0)
        + 50 * inject_Z (coins (tick_state r) - coins s).
Proof.
  intro Hr.
  destruct (beforeCollisions_frame P rnd s)
    as (_ & _ & _ & _ & B5 & B6 & _).
  destruct (render_inv rnd s r Hr)
    as [(-> & -> & _) | (-> & _ & s7 & -> & _ & _ & Hn & Hs & _)].
  - rewrite B5, B6. split; [lia |].
    rewrite Z.sub_diag. change (inject_Z 0) with 0. lra.
  - destruct (afterCoins_frame rnd s7) as (_ & _ & A3 & A4 & _).
    rewrite A3, A4, Hn, Hs, B5, B6. split; [lia |].
    match goal with
    | |- context [Z.of_nat ?n] => generalize (Z.of_nat n)
    end.
    intro k. replace (coins s + k - coins s)%Z with k by lia. lra.
Qed.

Lemma runSession_score (frames : list Frame) :
  forall s st calls,
    runSession P frames s = Some (st, calls, true) ->
    (coins s <= coins st)%Z
    /\ score st
       == score s
          + 0.5 * inject_Z (Z.of_nat (List.length frames))
          + 50 * inject_Z (coins st - coins s).
Proof.
  induction frames as [| f rest IH]; intros s st calls Hrun;
    cbn [runSession] in Hrun.
  - injection Hrun as <- _. split; [lia |].
    rewrite Z.sub_diag. cbn [List.length Z.of_nat].
    change (inject_Z 0) with 0. lra.
  - destruct (render P (random f) (applyInputs (inputs f) s))
      as [[[s1 calls1] again] |] eqn:Hr; [| discriminate].
    destruct again; [| discriminate].
    destruct (runSession P rest s1) as [[[s2 calls2] again2] |] eqn:Hrest;
      [| discriminate].
    injection Hrun as -> _ ->.
    destruct (IH s1 st calls2 Hrest) as (I1 & I2).
    destruct (render_score _ _ _ Hr) as (T1 & T2).
    destruct (applyInputs_rest (inputs f) s) as (E1 & E2 & _).
    unfold tick_state, tick_rescheduled in T1, T2. cbn [fst snd] in T1, T2.
    rewrite E1, E2 in *. split; [lia |].
    rewrite I2, T2.
    cbn [List.length]. rewrite Nat2Z.inj_succ. unfold Z.succ.
    rewrite inject_Z_plus.
    replace (coins st - coins s)%Z
      with ((coins st - coins s1) + (coins s1 - coins s))%Z by lia.
    rewrite inject_Z_plus. change (inject_Z 1) with 1. lra.
Qed.

(** X4.  While a session runs, the coin count never falls, and the score
    is the score it began with plus 0.5 for every completed tick plus 50
    for every coin collected since. *)
Theorem score_is_ticks_plus_coins (frames : list Frame)
    (s st : State) (calls : list Callback) :
  runSession P frames s = Some (st, calls, true) ->
  (coins s <= coins st)%Z
  /\ score st
     == score s
        + 0.5 * inject_Z (Z.of_nat (List.length frames))
        + 50 * inject_Z (coins st - coins s).
Proof.
  intro Hrun.
  destruct (runSession_score frames s st calls Hrun) as (Hcoins & Hscore).
  split; [exact Hcoins | exact Hscore].
Qed.

Lemma render_no_coins (rnd : TickRandom) (s : State) (r : TickResult) :
  render P rnd s = Some r ->
  coinsList s = [] -> 0.03 <= rCoinSpawn rnd ->
  coinsList (tick_state r) = [] /\ coins (tick_state r) = coins s.
Proof.
  intros Hr Hempty Hno.
  destruct (beforeCollisions_frame P rnd s)
    as (_ & _ & _ & _ & _ & B6 & _).
  destruct (beforeCollisions_lists rnd s) as (_ & L2 & _).
  assert (E6 : coinsList (fst (beforeCollisions P rnd s)) = []).
  { rewrite L2. unfold spawnCoin.
    apply JSFacts.ltb_ge in Hno. rewrite Hno.
    unfold advanceObjects. cbn [coinsList set_scenery set_coinsList].
    rewrite Hempty. reflexivity. }
  destruct (render_inv rnd s r Hr)
    as [(_ & -> & _) | (_ & _ & s7 & -> & _ & Hl & Hn & _)].
  - auto.
  - destruct (afterCoins_frame rnd s7) as (_ & _ & _ & A4 & _).
    destruct (afterCoins_rest rnd s7) as (_ & A2 & _).
    rewrite A2, A4, Hl, Hn, E6, B6. cbn. split; [reflexivity | lia].
Qed.

(** X5.  With no coin on the road and none spawned, a session that is
    still running after [T] ticks has no coin on the road, the coin count
    it began with, and the score it began with plus [T] times 0.5. *)
Theorem score_without_coins (frames : list Frame) :
  forall (s st : State) (calls : list Callback),
    runSession P frames s = Some (st, calls, true) ->
    coinsList s = [] ->
    Forall (fun f => 0.03 <= rCoinSpawn (random f)) frames ->
    coinsList st = [] /\ coins st = coins s
    /\ score st
       == score s + 0.5 * inject_Z (Z.of_nat (List.length frames)).
Proof.
  assert (Hc : forall fs s st calls,
             runSession P fs s = Some (st, calls, true) ->
             coinsList s = [] ->
             Forall (fun f => 0.03 <= rCoinSpawn (random f)) fs ->
             coinsList st = [] /\ coins st = coins s).
  { induction fs as [| f rest IH]; intros s st calls Hrun Hempty Hall;
      cbn [runSession] in Hrun.
    - injection Hrun as <- _. auto.
    - destruct (render P (random f) (applyInputs (inputs f) s))
        as [[[s1 calls1] again] |] eqn:Hr; [| discriminate].
      destruct again; [| discriminate].
      destruct (runSession P rest s1) as [[[s2 calls2] again2] |] eqn:Hrest;
        [| discriminate].
      injection Hrun as -> _ ->.
      inversion Hall as [| ? ? Hf Hrest']; subst.
      destruct (applyInputs_rest (inputs f) s) as (_ & E2 & E3 & _).
      destruct (render_no_coins _ _ _ Hr) as (N1 & N2);
        [rewrite E3; exact Hempty | exact Hf |].
      unfold tick_state in N1, N2. cbn [fst] in N1, N2.
      destruct (IH s1 st calls2 Hrest N1 Hrest') as (I1 & I2).
      split; [exact I1 | congruence]. }
  intros s st calls Hrun Hempty Hall.
  destruct (Hc frames s st calls Hrun Hempty Hall) as (H1 & H2).
  destruct (runSession_score frames s st calls Hrun) as (_ & Hs).
  split; [exact H1 |]. split; [exact H2 |].
  rewrite Hs, H2, Z.sub_diag. change (inject_Z 0) with 0. lra.
Qed.

(** *** Input *)

Lemma drag_step (x : Q) (xs : list Q) (s : State) :
  applyInputs (map TouchMove (x :: xs)) s
  = applyInputs (map TouchMove xs) (handleTouchMove x s).
Proof. reflexivity. Qed.

Lemma last_default (l : list Q) :
  forall a d d', last (a :: l) d = last (a :: l) d'.
Proof.
  induction l as [| b l IH]; intros a d d'; [reflexivity |].
  change (last (b :: l) d = last (b :: l) d'). apply IH.
Qed.

Lemma last_cons (x : Q) (xs : list Q) (d : Q) :
  last (x :: xs) d = last xs x.
Proof.
  destruct xs as [| q xs]; [reflexivity |].
  change (last (q :: xs) d = last (q :: xs) x). apply last_default.
Qed.

(** X6.  A touch drag moves the car by 0.005 times the distance between
    where the finger is and where it went down, however many move events
    report it, and leaves the finger's last position as the origin; move
    events without a finger down change nothing. *)
Theorem touch_drag_telescopes (xs : list Q) :
  forall (s : State),
    (forall x0,
       touchX s = Some x0 ->
       let s' := applyInputs (map TouchMove xs) s in
       touchX s' = Some (last xs x0)
       /\ carX s' == carX s + (last xs x0 - x0) * 0.005)
    /\ (touchX s = None -> applyInputs (map TouchMove xs) s = s)
    /\ applyInputs (map TouchMove xs) (handleTouchEnd s) = handleTouchEnd s.
Proof.
  assert (Hnone : forall l s, touchX s = None ->
                              applyInputs (map TouchMove l) s = s).
  { induction l as [| x l IH]; intros s Hs; [reflexivity |].
    rewrite drag_step. unfold handleTouchMove. rewrite Hs. apply IH, Hs. }
  induction xs as [| x xs IH]; intro s.
  - split; [| split]; try reflexivity.
    intros x0 H0. cbn. split; [exact H0 | ring].
  - split; [| split].
    + intros x0 H0. rewrite drag_step.
      assert (H1 : touchX (handleTouchMove x s) = Some x).
      { unfold handleTouchMove. rewrite H0. reflexivity. }
      assert (H2 : carX (handleTouchMove x s)
                   = carX s + (x - x0) * 0.005).
      { unfold handleTouchMove. rewrite H0. reflexivity. }
      destruct (IH (handleTouchMove x s)) as (Hdrag & _).
      destruct (Hdrag x H1) as (I1 & I2). cbn zeta.
      rewrite last_cons.
      split; [exact I1 |]. rewrite I2, H2. ring.
    + apply Hnone.
    + apply Hnone. reflexivity.
Qed.

(** *** Collisions *)

Lemma getProjection_y (s : State) (o : RoadObject) (h : Q)
    (proj : Projection) :
  getProjection P s o h = Some proj -> proj_y proj = obj_y o.
Proof.
  unfold getProjection.
  destruct (JS.ltb _ 0 || JS.gtb _ 1.2); [discriminate |].
  intros [= <-]. reflexivity.
Qed.

Lemma beforeCollisions_player (rnd : TickRandom) (s : State) :
  box_y (snd (beforeCollisions P rnd s)) = gameHeight P - 80
  /\ box_width (snd (beforeCollisions P rnd s)) = 100.
Proof.
  unfold beforeCollisions, drawPlayer. cbn [snd]. split; reflexivity.
Qed.

(** X7.  A tick ends the game only over an obstacle whose depth, when the
    collision checks run, is strictly within 20 of the player's depth
    [gameHeight - 80]: with every obstacle outside that band the tick
    runs to its end, whatever the lanes. *)
Theorem no_game_over_outside_band (rnd : TickRandom) (s : State) :
  (forall o,
     In o (obstacles (fst (beforeCollisions P rnd s))) ->
     obj_y o <= gameHeight P - 100 \/ gameHeight P - 60 <= obj_y o) ->
  exists r,
    render P rnd s = Some r
    /\ tick_rescheduled r = true
    /\ gameOverCount (tick_calls r) = 0%nat.
Proof.
  intro Hband.
  destruct (render_cases P rnd s) as [[Hc _] | [_ (s7 & _ & H)]].
  - exfalso. apply collides_iff in Hc.
    destruct Hc as (o & proj & Hin & Hp & (Hy1 & Hy2) & _).
    apply getProjection_y in Hp.
    destruct (beforeCollisions_player rnd s) as (Ey & _).
    rewrite Hp, Ey in Hy1, Hy2.
    destruct (Hband o Hin); lra.
  - eexists. split; [exact H |]. split; [reflexivity |].
    apply reportStats_no_game_over.
Qed.

Lemma behind_horizon_culled (s : State) (o : RoadObject) (h : Q) :
  h < gameHeight P -> obj_y o < h -> getProjection P s o h = None.
Proof.
  intros Hh Ho. unfold getProjection, perspectiveOf.
  assert (Hneg : (obj_y o - h) / (gameHeight P - h) < 0).
  { apply Qlt_shift_div_r; lra. }
  apply JSFacts.ltb_lt in Hneg. rewrite Hneg. reflexivity.
Qed.

(** X8.  With the horizon above the bottom edge, a tick that starts with
    no obstacle on the road does not end the game, even if it spawns one:
    the new obstacle is 50 behind the horizon, where nothing is projected.
    So the first tick of a session in a viewport of positive height never
    ends the game. *)
Theorem empty_road_no_game_over (rnd : TickRandom) (s : State) :
  horizonY s < gameHeight P -> obstacles s = [] ->
  (exists r,
     render P rnd s = Some r
     /\ tick_rescheduled r = true
     /\ gameOverCount (tick_calls r) = 0%nat)
  /\ (forall o,
        In o (obstacles (fst (beforeCollisions P rnd s))) ->
        getProjection P (fst (beforeCollisions P rnd s)) o (horizonY s)
        = None).
Proof.
  intros Hh Hempty.
  assert (Hcull : forall o,
             In o (obstacles (fst (beforeCollisions P rnd s))) ->
             getProjection P (fst (beforeCollisions P rnd s)) o (horizonY s)
             = None).
  { intros o Hin.
    destruct (beforeCollisions_lists rnd s) as (L1 & _).
    rewrite L1 in Hin. apply filter_In in Hin. destruct Hin as [Hin _].
    unfold spawnObstacle, advanceObjects in Hin.
    cbn [obstacles set_scenery set_coinsList set_obstacles] in Hin.
    rewrite Hempty in Hin. cbn [map List.length] in Hin.
    destruct (JS.ltb (rObstacleSpawn rnd) 0.02 && (0 <? 5)%nat);
      cbn [obstacles set_obstacles app] in Hin.
    - destruct Hin as [<- | []].
      apply behind_horizon_culled; [exact Hh | cbn; lra].
    - destruct Hin. }
  split; [| exact Hcull].
  destruct (render_cases P rnd s) as [[Hc _] | [_ (s7 & _ & H)]].
  - exfalso. apply collides_iff in Hc.
    destruct Hc as (o & proj & Hin & Hp & _).
    rewrite (Hcull o Hin) in Hp. discriminate.
  - eexists. split; [exact H |]. split; [reflexivity |].
    apply reportStats_no_game_over.
Qed.

(** *** The car *)

Lemma moveCar_step (s : State) :
  carX s - 0.05 <= carX (moveCar s) /\ carX (moveCar s) <= carX s + 0.05.
Proof.
  unfold moveCar.
  destruct (keys s "ArrowLeft"%string || keys s "a"%string);
    cbn [keys carX set_carX];
    destruct (keys s "ArrowRight"%string || keys s "d"%string);
    cbn [carX set_carX]; lra.
Qed.

Lemma afterCoins_carX (rnd : TickRandom) (s7 : State) :
  carX (afterCoins rnd s7)
  = carX (moveCar s7) - roadCurvature (afterCoins rnd s7) * 0.0001.
Proof.
  unfold afterCoins, addTickScore, updateCurve, easeCurve, retargetCurve.
  cbn. split_ifs; reflexivity.
Qed.

(** X9.  In a state the record can be in, a tick leaves [carX] strictly
    within 1.87 of the centre: the clamp to 1.8 that [drawPlayer] applied,
    one key step of 0.05 at most, and a centrifugal pull below 0.02.  The
    tick that ends the game leaves the clamped [carX]. *)
Theorem carX_after_tick (rnd : TickRandom) (s : State) (r : TickResult) :
  Reachable P s -> render P rnd s = Some r ->
  -1.87 < carX (tick_state r) /\ carX (tick_state r) < 1.87.
Proof.
  intros Hs Hr.
  assert (Hinv : CurveInv (tick_state r)).
  { apply (CurveInv_reachable P). apply (reach_tick P rnd s r Hs Hr). }
  destruct Hinv as (_ & Hlo & Hhi).
  destruct (beforeCollisions_frame P rnd s) as (B1 & _).
  assert (Hclamp : -1.8 <= clampCarX (carX s) /\ clampCarX (carX s) <= 1.8).
  { unfold clampCarX. split.
    - apply JSFacts.max_ge_l.
    - destruct (JSFacts.max_cases (-1.8) (JS.min 1.8 (carX s))) as [-> | ->].
      + lra.
      + apply JSFacts.min_le_l. }
  destruct (render_inv rnd s r Hr)
    as [(_ & E & _) | (_ & _ & s7 & E & _ & _ & _ & _ & Hrest)];
    rewrite E in *.
  - rewrite B1. lra.
  - destruct (coin_pass_frame _ _ _ _ _ Hrest) as (C1 & _).
    pose proof (moveCar_step s7) as Hm.
    rewrite (afterCoins_carX rnd s7). rewrite C1, B1 in Hm. lra.
Qed.

End Further.

(** *** Motion *)

Section Motion.

Variable P : Props.

(** X19.  With the horizon above the bottom edge, an object is projected
    exactly when its depth lies between the horizon and the bottom edge
    extended by a fifth of the distance between them. *)
Theorem visible_depth_window (s : State) (o : RoadObject) (h : Q) :
  h < gameHeight P ->
  (getProjection P s o h <> None
   <-> h <= obj_y o /\ obj_y o <= h + 1.2 * (gameHeight P - h)).
Proof.
  intro Hh. unfold getProjection, perspectiveOf.
  set (p := (obj_y o - h) / (gameHeight P - h)).
  assert (Hy : obj_y o == h + p * (gameHeight P - h)).
  { unfold p. field. lra. }
  assert (Hd : 0 < gameHeight P - h) by lra.
  destruct (JS.ltb p 0) eqn:E1; cbn [orb].
  - apply JSFacts.ltb_lt in E1. split; [congruence |].
    intros [Hlo _]. exfalso.
    assert (p * (gameHeight P - h) < 0) by nra. lra.
  - apply JSFacts.ltb_ge in E1.
    destruct (JS.gtb p 1.2) eqn:E2.
    + apply JSFacts.gtb_gt in E2. split; [congruence |].
      intros [_ Hhi]. exfalso.
      assert (1.2 * (gameHeight P - h) < p * (gameHeight P - h)) by nra.
      lra.
    + apply JSFacts.ltb_ge in E2. split; [intros _ | discriminate].
      assert (0 <= p * (gameHeight P - h)) by nra.
      assert (p * (gameHeight P - h) <= 1.2 * (gameHeight P - h)) by nra.
      split; lra.
Qed.

Lemma moveCar_keyStep (s : State) :
  carX (moveCar s) == carX s + keyStep s.
Proof.
  unfold moveCar, keyStep.
  destruct (keys s "ArrowLeft"%string || keys s "a"%string);
    cbn [keys carX set_carX];
    destruct (keys s "ArrowRight"%string || keys s "d"%string);
    cbn [carX set_carX]; ring.
Qed.

Lemma keyStep_ext (s s' : State) : keys s' = keys s -> keyStep s' = keyStep s.
Proof. unfold keyStep. intros ->. reflexivity. Qed.

(** X20.  A tick that runs to its end leaves the car at the clamped
    position it was drawn at, moved 0.05 right if a right key is down and
    0.05 left if a left key is down (both cancel), and pulled against the
    curve by 0.0001 of the new curvature. *)
Theorem lateral_move_per_tick (rnd : TickRandom) (s : State)
    (r : TickResult) :
  render P rnd s = Some r -> tick_rescheduled r = true ->
  carX (tick_state r)
  == clampCarX (carX s) + keyStep s
     - roadCurvature (tick_state r) * 0.0001.
Proof.
  intros Hr Hagain.
  destruct (beforeCollisions_frame P rnd s)
    as (B1 & _ & _ & _ & _ & _ & B7 & _).
  destruct (render_inv P rnd s r Hr)
    as [(E & _) | (_ & _ & s7 & E & _ & _ & _ & _ & Hrest)];
    [congruence |].
  rewrite E.
  destruct (coin_pass_frame _ _ _ _ _ Hrest)
    as (C1 & _ & _ & _ & _ & _ & C7 & _).
  rewrite (afterCoins_carX rnd s7), moveCar_keyStep.
  rewrite (keyStep_ext s s7) by (rewrite C7; exact B7).
  rewrite C1, B1. reflexivity.
Qed.

Lemma handleInput_timer (e : InputEvent) (s : State) :
  curveTimer (handleInput s e) = curveTimer s.
Proof.
  destruct e; cbn; try reflexivity.
  unfold handleTouchMove. destruct (touchX s); reflexivity.
Qed.

Lemma applyInputs_curve (evs : list InputEvent) (s : State) :
  curveTimer (applyInputs evs s) = curveTimer s
  /\ curveDirection (applyInputs evs s) = curveDirection s
  /\ roadCurvature (applyInputs evs s) = roadCurvature s.
Proof.
  apply (applyInputs_invariant
           (fun st => curveTimer st = curveTimer s
                      /\ curveDirection st = curveDirection s
                      /\ roadCurvature st = roadCurvature s)).
  - intros e st (H1 & H2 & H3).
    destruct (handleInput_frame e st) as (-> & -> & _).
    rewrite handleInput_timer. auto.
  - auto.
Qed.

Lemma afterCoins_timer (rnd : TickRandom) (s7 : State) :
  1 < curveTimer s7 ->
  curveTimer (afterCoins rnd s7) = curveTimer s7 - 1
  /\ curveDirection (afterCoins rnd s7) = curveDirection s7.
Proof.
  intro Ht.
  unfold afterCoins, addTickScore, updateCurve, easeCurve, retargetCurve.
  assert (E : JS.leb (curveTimer (set_curveTimer (curveTimer (moveCar s7) - 1)
                                    (moveCar s7))) 0 = false).
  { destruct (moveCar_frame s7) as (_ & _ & M3 & _).
    cbn [curveTimer set_curveTimer]. rewrite M3.
    unfold JS.leb. apply negb_false_iff, JSFacts.ltb_lt. lra. }
  rewrite E.
  destruct (moveCar_frame s7) as (_ & M2 & M3 & _).
  cbn. rewrite M2, M3. split; reflexivity.
Qed.

Lemma render_timer (rnd : TickRandom) (s : State) (r : TickResult) :
  render P rnd s = Some r -> tick_rescheduled r = true ->
  1 < curveTimer s ->
  curveTimer (tick_state r) = curveTimer s - 1
  /\ curveDirection (tick_state r) = curveDirection s
  /\ curveDirection s * 200 - roadCurvature (tick_state r)
     == 0.99 * (curveDirection s * 200 - roadCurvature s).
Proof.
  intros Hr Hagain Ht.
  destruct (beforeCollisions_frame P rnd s)
    as (_ & B2 & B3 & B4 & _).
  destruct (render_inv P rnd s r Hr)
    as [(E & _) | (_ & _ & s7 & E & _ & _ & _ & _ & Hrest)];
    [congruence |].
  rewrite E.
  destruct (coin_pass_frame _ _ _ _ _ Hrest) as (_ & C2 & C3 & C4 & _).
  destruct (afterCoins_timer rnd s7) as (T1 & T2).
  { rewrite C4, B4. exact Ht. }
  destruct (afterCoins_frame rnd s7) as (A1 & _).
  rewrite T2 in A1.
  rewrite T1, T2, A1, C2, C3, C4, B2, B3, B4.
  split; [reflexivity |]. split; [reflexivity |]. ring.
Qed.

(** X21.  While the curve timer is above the number of ticks run, the
    timer counts down by one per tick, the curve direction holds, and the
    distance of the curvature from direction times 200 shrinks by the
    factor 0.99 per tick. *)
Theorem curve_holds_while_timer_runs (frames : list Frame) :
  forall (s st : State) (calls : list Callback),
    runSession P frames s = Some (st, calls, true) ->
    inject_Z (Z.of_nat (List.length frames)) < curveTimer s ->
    curveTimer st == curveTimer s - inject_Z (Z.of_nat (List.length frames))
    /\ curveDirection st = curveDirection s
    /\ curveDirection s * 200 - roadCurvature st
       == 0.99 ^ Z.of_nat (List.length frames)
          * (curveDirection s * 200 - roadCurvature s).
Proof.
  induction frames as [| f rest IH]; intros s st calls Hrun Ht;
    cbn [runSession] in Hrun.
  - injection Hrun as <- _. cbn [List.length Z.of_nat].
    change (inject_Z 0) with 0. change (0.99 ^ 0) with 1.
    split; [ring |]. split; [reflexivity | ring].
  - destruct (render P (random f) (applyInputs (inputs f) s))
      as [[[s1 calls1] again] |] eqn:Hr; [| discriminate].
    destruct again; [| discriminate].
    destruct (runSession P rest s1) as [[[s2 calls2] again2] |] eqn:Hrest;
      [| discriminate].
    injection Hrun as -> _ ->.
    cbn [List.length] in Ht |- *.
    rewrite Nat2Z.inj_succ in Ht |- *. unfold Z.succ in Ht |- *.
    rewrite inject_Z_plus in Ht |- *. change (inject_Z 1) with 1 in Ht |- *.
    pose proof (Nat2Z.is_nonneg (List.length rest)) as Hn.
    assert (Hn' : 0 <= inject_Z (Z.of_nat (List.length rest))).
    { change 0 with (inject_Z 0). rewrite <- Zle_Qle. exact Hn. }
    destruct (applyInputs_curve (inputs f) s) as (E1 & E2 & E3).
    destruct (render_timer _ _ _ Hr eq_refl) as (T1 & T2 & T3).
    { rewrite E1. lra. }
    unfold tick_state in T1, T2, T3. cbn [fst] in T1, T2, T3.
    rewrite E1 in T1. rewrite E2 in T2, T3. rewrite E3 in T3.
    destruct (IH s1 st calls2 Hrest) as (I1 & I2 & I3).
    { rewrite T1. lra. }
    rewrite T1 in I1. rewrite T2 in I2, I3.
    split; [rewrite I1; ring |]. split; [exact I2 |].
    rewrite I3, T3.
    rewrite Qpower_plus by discriminate.
    change (0.99 ^ 1) with 0.99. ring.
Qed.

End Motion.

(** *** The further properties at sample inputs *)

Lemma afterOneTick_reachable : Reachable sampleProps afterOneTick.
Proof.
  unfold afterOneTick.
  destruct (render sampleProps quietRandom firstSession) as [r |] eqn:E.
  - apply (reach_tick sampleProps quietRandom firstSession r);
      [apply reach_init, reach_mount | exact E].
  - apply reach_init, reach_mount.
Qed.

Lemma obstacles_capped_witness :
  (List.length (obstacles afterOneTick) <= 5)%nat.
Proof.
  apply (obstacles_capped sampleProps afterOneTick afterOneTick_reachable).
Defined.

Lemma road_lines_stay_on_road_witness :
  exists r,
    runSession sampleProps [quietFrame; quietFrame] firstSession = Some r
    /\ List.length (roadLines (tick_state r)) = 12%nat
    /\ Forall (fun l => 600 * 0.4 <= line_y l /\ line_y l <= 600)
         (roadLines (tick_state r))
    /\ speed (tick_state r) = 10
    /\ horizonY (tick_state r) = 600 * 0.4.
Proof.
  apply (road_lines_stay_on_road sampleProps (fun _ => 0.5) stateRef0
           [quietFrame; quietFrame]).
  - reflexivity.
  - discriminate.
Defined.

Lemma score_is_ticks_plus_coins_witness :
  exists st calls,
    runSession sampleProps [quietFrame] coinState = Some (st, calls, true)
    /\ (coins coinState <= coins st)%Z
    /\ score st
       == score coinState + 0.5 * inject_Z 1
          + 50 * inject_Z (coins st - coins coinState).
Proof.
  destruct (runSession sampleProps [quietFrame] coinState)
    as [[[st calls] again] |] eqn:E; [| vm_compute in E; discriminate E].
  assert (Ha : again = true).
  { vm_compute in E. injection E as _ _ <-. reflexivity. }
  subst again. exists st, calls. split; [reflexivity |].
  apply (score_is_ticks_plus_coins sampleProps [quietFrame] coinState st
           calls E).
Defined.

Lemma score_without_coins_witness :
  exists st calls,
    runSession sampleProps [quietFrame; quietFrame] firstSession
    = Some (st, calls, true)
    /\ coinsList st = [] /\ coins st = 0%Z /\ score st == 0 + 0.5 * 2.
Proof.
  destruct (runSession sampleProps [quietFrame; quietFrame] firstSession)
    as [[[st calls] again] |] eqn:E; [| vm_compute in E; discriminate E].
  assert (Ha : again = true).
  { vm_compute in E. injection E as _ _ <-. reflexivity. }
  subst again. exists st, calls. split; [reflexivity |].
  apply (score_without_coins sampleProps [quietFrame; quietFrame]
           firstSession st calls E).
  - reflexivity.
  - repeat constructor; discriminate.
Defined.

Lemma no_game_over_outside_band_witness :
  exists r,
    render sampleProps quietRandom farState = Some r
    /\ tick_rescheduled r = true
    /\ gameOverCount (tick_calls r) = 0%nat.
Proof.
  apply (no_game_over_outside_band sampleProps quietRandom farState).
  intros o Hin. vm_compute in Hin. destruct Hin as [<- | []].
  left. discriminate.
Defined.

Lemma empty_road_no_game_over_witness :
  exists r,
    render sampleProps quietRandom firstSession = Some r
    /\ tick_rescheduled r = true
    /\ gameOverCount (tick_calls r) = 0%nat.
Proof.
  apply (proj1 (empty_road_no_game_over sampleProps quietRandom
                  firstSession eq_refl eq_refl)).
Defined.

Lemma carX_after_tick_witness :
  exists r,
    render sampleProps quietRandom firstSession = Some r
    /\ -1.87 < carX (tick_state r) /\ carX (tick_state r) < 1.87.
Proof.
  destruct (render_total sampleProps quietRandom firstSession) as [r Hr].
  exists r. split; [exact Hr |].
  apply (carX_after_tick sampleProps quietRandom firstSession r);
    [apply reach_init, reach_mount | exact Hr].
Defined.

Lemma first_tick_result :
  render sampleProps quietRandom firstSession
  = Some (afterOneTick, [onScoreUpdate 0 0], true).
Proof. vm_compute. reflexivity. Qed.

Lemma second_tick_result :
  runSession sampleProps [quietFrame] afterOneTick
  = Some (afterTwoTicks, [], true).
Proof. vm_compute. reflexivity. Qed.

Lemma visible_depth_window_witness :
  getProjection sampleProps firstSession (coinAt 0 300) 240 <> None
  <-> 240 <= 300 /\ 300 <= 240 + 1.2 * (600 - 240).
Proof.
  apply (visible_depth_window sampleProps firstSession (coinAt 0 300) 240).
  reflexivity.
Defined.

Lemma lateral_move_per_tick_witness :
  let r := (afterOneTick, [onScoreUpdate 0 0], true) in
  carX (tick_state r)
  == clampCarX (carX firstSession) + keyStep firstSession
     - roadCurvature (tick_state r) * 0.0001.
Proof.
  apply (lateral_move_per_tick sampleProps quietRandom firstSession
           (afterOneTick, [onScoreUpdate 0 0], true)
           first_tick_result eq_refl).
Defined.

Lemma curve_holds_while_timer_runs_witness :
  let T := Z.of_nat (List.length [quietFrame]) in
  curveTimer afterTwoTicks == curveTimer afterOneTick - inject_Z T
  /\ curveDirection afterTwoTicks = curveDirection afterOneTick
  /\ curveDirection afterOneTick * 200 - roadCurvature afterTwoTicks
     == 0.99 ^ T
        * (curveDirection afterOneTick * 200 - roadCurvature afterOneTick).
Proof.
  apply (curve_holds_while_timer_runs sampleProps [quietFrame] afterOneTick
           afterTwoTicks [] second_tick_result).
  vm_compute. reflexivity.
Defined.

End EngineFacts.

(** ** The leaderboard service *)

Module LeaderboardFacts.

Import Leaderboard.
Open Scope Z_scope.

Lemma insert_perm (x : ScoreEntry) (l : list ScoreEntry) :
  Permutation (insert x l) (x :: l).
Proof.
  induction l as [| y l IH]; cbn [insert].
  - apply Permutation_refl.
  - destruct (compareFn x y <=? 0).
    + apply Permutation_refl.
    + apply perm_trans with (y :: x :: l).
      * apply perm_skip, IH.
      * apply perm_swap.
Qed.

Lemma sort_perm (l : list ScoreEntry) : Permutation (sort l) l.
Proof.
  induction l as [| x l IH]; cbn [sort].
  - apply perm_nil.
  - apply perm_trans with (x :: sort l).
    + apply insert_perm.
    + apply perm_skip, IH.
Qed.

Lemma insert_Forall (Q : ScoreEntry -> Prop) (x : ScoreEntry)
    (l : list ScoreEntry) :
  Q x -> Forall Q l -> Forall Q (insert x l).
Proof.
  intros Hx Hl. apply Forall_forall. intros a Ha.
  apply (Permutation_in a (insert_perm x l)) in Ha.
  destruct Ha as [<- | Ha]; [exact Hx |].
  apply (proj1 (Forall_forall _ _) Hl a Ha).
Qed.

Lemma In_firstn (n : nat) (l : list ScoreEntry) (a : ScoreEntry) :
  In a (firstn n l) -> In a l.
Proof.
  intro H. rewrite <- (firstn_skipn n l). apply in_or_app. left. exact H.
Qed.

Lemma insert_sorted (x : ScoreEntry) (l : list ScoreEntry) :
  Descending l -> Descending (insert x l).
Proof.
  unfold Descending.
  induction l as [| y l IH]; intro Hl; cbn [insert].
  - constructor; constructor.
  - inversion Hl as [| ? ? Hl' Hy]; subst.
    destruct (Z.leb_spec (compareFn x y) 0) as [Hc | Hc];
      unfold compareFn in Hc.
    + constructor; [exact Hl |].
      constructor; [lia |].
      apply Forall_impl with (2 := Hy). intros a Ha. cbn in Ha. lia.
    + constructor; [apply IH, Hl' |].
      apply insert_Forall; [lia | exact Hy].
Qed.

Lemma sort_sorted (l : list ScoreEntry) : Descending (sort l).
Proof.
  induction l as [| x l IH]; cbn [sort].
  - constructor.
  - apply insert_sorted, IH.
Qed.

Lemma firstn_sorted (n : nat) (l : list ScoreEntry) :
  Descending l -> Descending (firstn n l).
Proof.
  unfold Descending. revert n.
  induction l as [| x l IH]; intros [| n] Hl; cbn [firstn];
    try constructor.
  - inversion Hl; subst. apply IH. assumption.
  - inversion Hl as [| ? ? _ Hx]; subst.
    apply Forall_forall. intros a Ha.
    apply (proj1 (Forall_forall _ _) Hx).
    apply (In_firstn n l a Ha).
Qed.





Lemma insert_snoc (x e : ScoreEntry) (l : list ScoreEntry) :
  score e <= score x -> insert x (l ++ [e]) = insert x l ++ [e].
Proof.
  intro H. induction l as [| y l IH]; cbn [insert app].
  - unfold compareFn.
    destruct (Z.leb_spec (score e - score x) 0); [reflexivity | lia].
  - destruct (compareFn x y <=? 0); [reflexivity |].
    rewrite IH. reflexivity.
Qed.

(** An entry that no stored entry scores below is sorted to the end. *)
Lemma sort_snoc_lowest (db : list ScoreEntry) (e : ScoreEntry) :
  Forall (fun x => score e <= score x) db ->
  sort (db ++ [e]) = sort db ++ [e].
Proof.
  induction 1 as [| x db Hx _ IH]; cbn [sort app]; [reflexivity |].
  rewrite IH. apply insert_snoc, Hx.
Qed.

Lemma sort_length (l : list ScoreEntry) :
  List.length (sort l) = List.length l.
Proof. apply Permutation_length, sort_perm. Qed.

Lemma upperAscii_spec : UpperCaseSpec upperAscii.
Proof.
  split.
  - intros [| u s] H; [reflexivity | discriminate H].
  - reflexivity.
Qed.

Lemma entryName_cases (toUpperCase : jsstring -> jsstring)
    (name : jsstring) :
  UpperCaseSpec toUpperCase ->
  entryName toUpperCase name
  = match name with
    | [] => units "PILOTO"
    | _ :: _ => firstn 10 (toUpperCase name)
    end.
Proof.
  intros (Hne & Hascii). unfold entryName.
  destruct name as [| u rest].
  - rewrite (Hascii []) by constructor. reflexivity.
  - destruct (toUpperCase (u :: rest)) as [| c t] eqn:E; [| reflexivity].
    apply Hne in E. discriminate E.
Qed.

Lemma entryName_shape (toUpperCase : jsstring -> jsstring)
    (name : jsstring) :
  entryName toUpperCase name <> []
  /\ (List.length (entryName toUpperCase name) <= 10)%nat.
Proof.
  unfold entryName.
  destruct (firstn 10 (toUpperCase name)) as [| c t] eqn:E.
  - split; [discriminate | cbn; lia].
  - split; [discriminate |]. rewrite <- E. apply firstn_le_length.
Qed.


Section WithCap.

Variable toUpperCase : jsstring -> jsstring.
Variable MAX_LEADERBOARD_ENTRIES : nat.


End WithCap.


(** *** Further properties *)

Lemma sort_sorted_id (l : list ScoreEntry) : Descending l -> sort l = l.
Proof.
  unfold Descending.
  induction 1 as [| x l _ IH Hx]; cbn [sort]; [reflexivity |].
  rewrite IH. destruct l as [| y l]; [reflexivity |].
  cbn [insert]. unfold compareFn.
  inversion Hx as [| ? ? Hy _]; subst.
  destruct (Z.leb_spec (score y - score x) 0); [reflexivity | lia].
Qed.


Section WithCap.

Variable toUpperCase : jsstring -> jsstring.
Variable MAX_LEADERBOARD_ENTRIES : nat.

Lemma addScore_result (uuid now : jsstring) (accepts : bool)
    (name : jsstring) (sc : Z) (st : Item) :
  let e := mkEntry uuid (entryName toUpperCase name) sc now in
  fst (addScore toUpperCase MAX_LEADERBOARD_ENTRIES uuid now accepts name sc
          st)
  = firstn MAX_LEADERBOARD_ENTRIES (sort (getDB st ++ [e]))
  /\ snd (addScore toUpperCase MAX_LEADERBOARD_ENTRIES uuid now accepts name sc
          st)
     = if accepts
       then Entries (firstn MAX_LEADERBOARD_ENTRIES (sort (getDB st ++ [e])))
       else st.
Proof. split; reflexivity. Qed.

(** X11.  Reading the board back after [addScore] gives the list
    [addScore] returned when the storage took the write, and the board as
    it was before when it did not. *)
Theorem getAll_after_addScore (uuid now : jsstring) (accepts : bool)
    (name : jsstring) (sc : Z) (st : Item) :
  getAll (snd (addScore toUpperCase MAX_LEADERBOARD_ENTRIES uuid now accepts name sc
          st))
  = if accepts
    then fst (addScore toUpperCase MAX_LEADERBOARD_ENTRIES uuid now accepts name sc
          st)
    else getAll st.
Proof.
  destruct (addScore_result uuid now accepts name sc st) as (E1 & E2).
  rewrite E1, E2. destruct accepts; [| reflexivity].
  unfold getAll. cbn [getDB].
  apply sort_sorted_id, firstn_sorted, sort_sorted.
Qed.

(** X12.  On a full board a new score that does not beat the lowest
    stored score is dropped, a tie included: the result is the stored
    board in order. *)
Theorem tie_on_full_board_dropped (uuid now : jsstring) (accepts : bool)
    (name : jsstring) (sc : Z) (st : Item) :
  List.length (getDB st) = MAX_LEADERBOARD_ENTRIES ->
  Forall (fun x => sc <= score x) (getDB st) ->
  fst (addScore toUpperCase MAX_LEADERBOARD_ENTRIES uuid now accepts name sc
          st)
  = getAll st.
Proof.
  intros Hlen Hlow.
  destruct (addScore_result uuid now accepts name sc st) as (-> & _).
  rewrite sort_snoc_lowest by exact Hlow.
  rewrite firstn_app, sort_length, Hlen, Nat.sub_diag.
  cbn [firstn]. rewrite app_nil_r.
  rewrite <- Hlen, <- (sort_length (getDB st)). apply firstn_all.
Qed.

Lemma insert_below (x e : ScoreEntry) (l : list ScoreEntry) :
  score x < score e -> insert x (e :: l) = e :: insert x l.
Proof.
  intro H. cbn [insert]. unfold compareFn.
  destruct (Z.leb_spec (score e - score x) 0); [lia | reflexivity].
Qed.

Lemma sort_snoc_highest (db : list ScoreEntry) (e : ScoreEntry) :
  Forall (fun x => score x < score e) db ->
  sort (db ++ [e]) = e :: sort db.
Proof.
  induction 1 as [| x db Hx _ IH]; cbn [sort app]; [reflexivity |].
  rewrite IH. apply insert_below, Hx.
Qed.

(** X13.  With room for at least one entry, a score above every stored
    score puts the new entry first, followed by the stored board in
    order, as far as the cap allows. *)
Theorem new_high_score_leads (uuid now : jsstring) (accepts : bool)
    (name : jsstring) (sc : Z) (st : Item) :
  (0 < MAX_LEADERBOARD_ENTRIES)%nat ->
  Forall (fun x => score x < sc) (getDB st) ->
  fst (addScore toUpperCase MAX_LEADERBOARD_ENTRIES uuid now accepts name sc
          st)
  = mkEntry uuid (entryName toUpperCase name) sc now
    :: firstn (MAX_LEADERBOARD_ENTRIES - 1) (getAll st).
Proof.
  intros Hcap Hhigh.
  destruct (addScore_result uuid now accepts name sc st) as (-> & _).
  rewrite sort_snoc_highest by exact Hhigh.
  destruct MAX_LEADERBOARD_ENTRIES as [| n]; [lia |].
  replace (S n - 1)%nat with n by lia. reflexivity.
Qed.


(** X15.  A storage that holds at most the cap of entries in descending
    order, or nothing readable, is still such a storage after any
    sequence of [addScore] calls, whichever of the writes fail. *)
Theorem store_stays_sorted_and_capped (reqs : list Request) :
  forall st,
    StoreOk MAX_LEADERBOARD_ENTRIES st ->
    StoreOk MAX_LEADERBOARD_ENTRIES
      (addScores toUpperCase MAX_LEADERBOARD_ENTRIES reqs st).
Proof.
  unfold addScores.
  induction reqs as [| q reqs IH]; intros st Hst; cbn [fold_left].
  - exact Hst.
  - apply IH.
    destruct (addScore_result (req_uuid q) (req_now q) (req_accepts q)
                (req_name q) (req_score q) st) as (_ & ->).
    destruct (req_accepts q); [| exact Hst].
    cbn [StoreOk]. split.
    + apply firstn_sorted, sort_sorted.
    + apply firstn_le_length.
Qed.

End WithCap.

(** *** Names *)

Lemma upperUnit_not_lower (u : N) :
  ~ (97 <= upperUnit u /\ upperUnit u <= 122)%N.
Proof.
  unfold upperUnit, isLowerUnit.
  destruct (N.leb_spec 97 u); destruct (N.leb_spec u 122); cbn [andb]; lia.
Qed.

Lemma upperUnit_keeps (u : N) :
  ~ (97 <= u /\ u <= 122)%N -> upperUnit u = u.
Proof.
  unfold upperUnit, isLowerUnit. intro H.
  destruct (N.leb_spec 97 u); destruct (N.leb_spec u 122); cbn [andb];
    try reflexivity.
  exfalso. apply H. split; assumption.
Qed.

Lemma Forall_firstn_keeps {A : Type} (Q : A -> Prop) (n : nat)
    (l : list A) :
  Forall Q l -> Forall Q (firstn n l).
Proof.
  intro H. apply Forall_forall. intros a Ha.
  apply (proj1 (Forall_forall Q l) H).
  rewrite <- (firstn_skipn n l). apply in_or_app. left. exact Ha.
Qed.

Section WithBuiltin.

Variable toUpperCase : jsstring -> jsstring.

(** X16.  The name [addScore] stores for a name of ASCII characters is
    never empty, has at most 10 characters, and has no letter a to z
    (no code unit from 97 to 122) in it.  A non-empty name of at most 10
    characters without such letters is stored unchanged. *)
Theorem stored_name_shape (name : jsstring) :
  UpperCaseSpec toUpperCase -> isAscii name ->
  entryName toUpperCase name <> []
  /\ (List.length (entryName toUpperCase name) <= 10)%nat
  /\ Forall (fun u => ~ (97 <= u /\ u <= 122)%N) (entryName toUpperCase name)
  /\ (name <> [] -> (List.length name <= 10)%nat ->
      Forall (fun u => ~ (97 <= u /\ u <= 122)%N) name ->
      entryName toUpperCase name = name).
Proof.
  intros Hspec Hascii.
  destruct (entryName_shape toUpperCase name) as (Hne & Hlen).
  split; [exact Hne |]. split; [exact Hlen |].
  rewrite (entryName_cases toUpperCase name Hspec).
  destruct Hspec as (_ & Hup).
  destruct name as [| u rest].
  - split; [| congruence].
    change (units "PILOTO") with [80; 73; 76; 79; 84; 79]%N.
    repeat (constructor; [lia |]). constructor.
  - rewrite (Hup _ Hascii). unfold upperAscii. split.
    + apply Forall_firstn_keeps, Forall_forall.
      intros v Hv. apply in_map_iff in Hv. destruct Hv as (w & <- & _).
      apply upperUnit_not_lower.
    + intros _ Hshort Hupper.
      rewrite firstn_all2 by (rewrite length_map; exact Hshort).
      rewrite <- (map_id (u :: rest)) at 2.
      apply map_ext_in. intros v Hv.
      apply upperUnit_keeps, (proj1 (Forall_forall _ _) Hupper v Hv).
Qed.

End WithBuiltin.

(** *** The further properties at sample inputs *)

Lemma tie_on_full_board_dropped_witness :
  fst (addScore upperAscii 3 (units "4") (units "d4") true (units "zeca")
         500 (Entries sampleBoard))
  = sampleBoard.
Proof.
  apply (tie_on_full_board_dropped upperAscii 3 (units "4") (units "d4")
           true (units "zeca") 500 (Entries sampleBoard)).
  - reflexivity.
  - repeat constructor; discriminate.
Defined.

Lemma new_high_score_leads_witness :
  fst (addScore upperAscii 3 (units "4") (units "d4") true (units "zeca")
         1000 (Entries sampleBoard))
  = mkEntry (units "4") (units "ZECA") 1000 (units "d4")
    :: firstn 2 sampleBoard.
Proof.
  apply (new_high_score_leads upperAscii 3 (units "4") (units "d4") true
           (units "zeca") 1000 (Entries sampleBoard)).
  - lia.
  - repeat constructor.
Defined.

Lemma store_stays_sorted_and_capped_witness :
  StoreOk 1
    (addScores upperAscii 1
       [mkRequest (units "1") (units "d1") true (units "ana") 10;
        mkRequest (units "2") (units "d2") false (units "bia") 30;
        mkRequest (units "3") (units "d3") true (units "caio") 20]
       Malformed).
Proof.
  apply (store_stays_sorted_and_capped upperAscii 1). exact I.
Defined.

Lemma stored_name_shape_witness :
  Forall (fun u => ~ (97 <= u /\ u <= 122)%N)
    (entryName upperAscii (units "zeca"))
  /\ entryName upperAscii (units "zeca") = units "ZECA".
Proof.
  assert (Ha : isAscii (units "zeca")).
  { unfold isAscii. vm_compute. repeat (constructor; [reflexivity |]).
    constructor. }
  split; [| reflexivity].
  apply (proj1 (proj2 (proj2 (stored_name_shape upperAscii (units "zeca")
                                upperAscii_spec Ha)))).
Defined.

End LeaderboardFacts.

(** ** The host component *)

Module AppFacts.

Import Leaderboard App.

Lemma trimEnd_empty (s : string) :
  trimEnd s = ""%string <-> allSpaces s = true.
Proof.
  induction s as [| c s IH]; cbn [trimEnd allSpaces].
  - split; reflexivity.
  - destruct (isSpace c); cbn [andb].
    + destruct (String.eqb_spec (trimEnd s) "") as [E | E].
      * split; [intros _; apply IH, E | reflexivity].
      * split; [discriminate |]. intro H. apply IH in H. contradiction.
    + split; discriminate.
Qed.

Lemma allSpaces_trimStart (s : string) :
  allSpaces (trimStart s) = allSpaces s.
Proof.
  induction s as [| c s IH]; cbn [trimStart allSpaces]; [reflexivity |].
  destruct (isSpace c) eqn:E; cbn [andb allSpaces].
  - exact IH.
  - rewrite E. reflexivity.
Qed.

Lemma trim_empty (s : string) : trim s = ""%string <-> allSpaces s = true.
Proof.
  unfold trim. rewrite trimEnd_empty, allSpaces_trimStart. reflexivity.
Qed.

(** X17.  [startGame] starts a game, from whatever phase, with score and
    coins at 0, exactly when the player's name has a character that is
    not white space; otherwise it leaves the host state as it is.  It
    never touches the name or the board. *)
Theorem startGame_needs_a_name (app : AppState) :
  startGame app
  = (if allSpaces (playerName app) then app
     else mkApp PLAYING 0 0 (playerName app) (highScores app))
  /\ playerName (startGame app) = playerName app
  /\ highScores (startGame app) = highScores app.
Proof.
  unfold startGame.
  destruct (String.eqb_spec (trim (playerName app)) "") as [E | E].
  - apply trim_empty in E. rewrite E. repeat split.
  - destruct (allSpaces (playerName app)) eqn:Ea.
    + apply trim_empty in Ea. contradiction.
    + repeat split.
Qed.

Section WithProps.

Variable P : Engine.Props.
Variable toUpperCase : jsstring -> jsstring.
Variable MAX_LEADERBOARD_ENTRIES : nat.

Lemma half_ticks_floor (T c : Z) (q : Q) :
  (q == 0 + 0.5 * inject_Z T + 50 * inject_Z (c - 0))%Q ->
  JS.floor q = (T / 2 + 50 * c)%Z.
Proof.
  intro Hq. unfold JS.floor.
  rewrite (Qfloor_comp _ (inject_Z (T + 50 * c * 2) / inject_Z 2)%Q).
  - rewrite <- Zdiv_Qdiv. apply Z.div_add. discriminate.
  - rewrite Hq, Z.sub_0_r, inject_Z_plus, !inject_Z_mult.
    change (inject_Z 2) with 2%Q. change (inject_Z 50) with 50%Q. field.
Qed.

(** X18.  When a session that began with [initGame] and completed [T]
    ticks is ended by an obstacle overlap, the engine calls [onGameOver]
    with [T / 2 + 50 * coins] and the coin count, and the host, adding 50
    per coin again, enters on the board [T / 2 + 100 * coins] under the
    player's name, moves to GAME_OVER and leaves its own score and coin
    display as the last score report set them. *)
Theorem game_over_reaches_board (rnd0 : nat -> Q) (prev : Engine.State)
    (frames : list Engine.Frame) (evs : list Engine.InputEvent)
    (rnd : Engine.TickRandom) (s1 : Engine.State)
    (calls : list Engine.Callback) (uuid now : jsstring) (accepts : bool)
    (app : AppState) (st : Item) :
  Engine.runSession P frames (Engine.initGame P rnd0 prev)
  = Some (s1, calls, true) ->
  Engine.ObstacleOverlap P rnd (Engine.applyInputs evs s1) ->
  let T := Z.of_nat (List.length frames) in
  let c := Engine.coins s1 in
  let call := Engine.onGameOver (T / 2 + 50 * c) c in
  let app' :=
    fst (deliver toUpperCase MAX_LEADERBOARD_ENTRIES uuid now accepts call
           app st) in
  let st' :=
    snd (deliver toUpperCase MAX_LEADERBOARD_ENTRIES uuid now accepts call
           app st) in
  (exists s6,
     Engine.render P rnd (Engine.applyInputs evs s1)
     = Some (s6, [call], false))
  /\ gameState app' = GAME_OVER
  /\ score app' = score app /\ coins app' = coins app
  /\ highScores app'
     = firstn MAX_LEADERBOARD_ENTRIES
         (sort (getDB st
                ++ [mkEntry uuid
                      (entryName toUpperCase (units (playerName app)))
                      (T / 2 + 100 * c) now]))
  /\ st' = (if accepts then Entries (highScores app') else st).
Proof.
  intros Hrun Hov T c call app' st'.
  split.
  - apply EngineFacts.collides_iff in Hov.
    destruct (EngineFacts.render_cases P rnd (Engine.applyInputs evs s1))
      as [[_ H] | [Hc _]]; [| congruence].
    destruct (EngineFacts.beforeCollisions_frame P rnd
                (Engine.applyInputs evs s1))
      as (_ & _ & _ & _ & B5 & B6 & _).
    destruct (EngineFacts.applyInputs_rest evs s1) as (E1 & E2 & _).
    destruct (EngineFacts.runSession_score P frames _ s1 calls Hrun)
      as (_ & Hs).
    cbn [Engine.initGame Engine.score Engine.coins] in Hs.
    rewrite B5, B6, E1, E2 in H.
    rewrite (half_ticks_floor T c (Engine.score s1) Hs) in H.
    eexists. exact H.
  - unfold app', st', call, deliver, handleGameOver, addScore.
    cbn [fst snd gameState score coins highScores saveDB].
    replace (T / 2 + 50 * c + c * 50)%Z with (T / 2 + 100 * c)%Z by lia.
    repeat split.
Qed.

End WithProps.

(** At speed 160 the obstacle spawned by the first tick is in the
    player's band in the third: two completed ticks and no coin enter 1
    point on the board. *)
Lemma game_over_reaches_board_witness :
  Engine.runSession Engine.fastProps
    [Engine.spawnFrame; Engine.quietFrame]
    (Engine.initGame Engine.fastProps (fun _ => 0.5%Q) Engine.stateRef0)
  = Some (Engine.twoTicksIn, [Engine.onScoreUpdate 0 0], true)
  /\ (exists s6,
        Engine.render Engine.fastProps Engine.quietRandom
          (Engine.applyInputs [] Engine.twoTicksIn)
        = Some (s6, [Engine.onGameOver 1 0], false))
  /\ highScores
       (fst (deliver upperAscii 5 (units "4") (units "d4") true
               (Engine.onGameOver 1 0) sampleApp (Entries sampleBoard)))
     = sampleBoard ++ [mkEntry (units "4") (units "ANA") 1 (units "d4")].
Proof.
  assert (E : Engine.runSession Engine.fastProps
                [Engine.spawnFrame; Engine.quietFrame]
                (Engine.initGame Engine.fastProps (fun _ => 0.5%Q)
                   Engine.stateRef0)
              = Some (Engine.twoTicksIn, [Engine.onScoreUpdate 0 0], true)).
  { vm_compute. reflexivity. }
  assert (Hov : Engine.ObstacleOverlap Engine.fastProps Engine.quietRandom
                  (Engine.applyInputs [] Engine.twoTicksIn)).
  { apply EngineFacts.collides_iff. vm_compute. reflexivity. }
  destruct (game_over_reaches_board Engine.fastProps upperAscii 5
              (fun _ => 0.5%Q) Engine.stateRef0
              [Engine.spawnFrame; Engine.quietFrame] []
              Engine.quietRandom Engine.twoTicksIn
              [Engine.onScoreUpdate 0 0] (units "4") (units "d4") true
              sampleApp (Entries sampleBoard) E Hov)
    as (Hr & _ & _ & _ & Hboard & _).
  assert (Hc : Engine.coins Engine.twoTicksIn = 0%Z)
    by (vm_compute; reflexivity).
  rewrite Hc in Hr, Hboard.
  split; [exact E |]. split; [exact Hr | exact Hboard].
Defined.

End AppFacts.
